(** * Swarm node runtime: peer directory, storage manager, model runtime

    A shallow embedding of the three stateful components of the swarm node
    firmware, each in its own module:

    - [Firmware]     : [SwarmIntelligenceNode] of esp32-swarm-firmware.c
                       (peer table, [processBeacon], the ESP-NOW receive
                       callback);
    - [FileManager]  : FileManager.hpp ([handleRead], [handleWrite],
                       [fileTask]);
    - [ModelRuntime] : ModelRuntime.hpp ([handleModelLoad],
                       [handleInference], [modelTask]).

    Arrays updated in place are lists with stdpp's lookup and [alter];
    [std::map] is a [gmap]; a worker task is a step function on the state the
    task owns (its resource and its [response] variable), folded over the
    requests in the order the queue delivers them. *)

From Stdlib Require Import Strings.Byte.
From stdpp Require Import gmap strings list fin_maps.

Local Open Scope string_scope.
Local Open Scope nat_scope.

(** ** Raw memory helpers shared by the components *)

#[global] Instance byte_eq_decision : EqDecision byte := Byte.byte_eq_dec.

(** [memcpy(dst, src, n)]: the image of the memory that starts at [dst] once
    the first [n] bytes of [src] have been stored there.  When [n] exceeds the
    size of the object at [dst] the image is longer than the object: the
    surplus is what the call stores past its end.  ([src] holds at least [n]
    bytes in every call the components make with a well-formed request; were
    it shorter, the image takes the bytes there are.) *)
Definition memcpy (dst src : list byte) (n : nat) : list byte :=
  let chunk := take n src in chunk ++ drop (length chunk) dst.

(** [memcmp(a, b, n) == 0] *)
Definition memcmp_eq (a b : list byte) (n : nat) : bool :=
  bool_decide (take n a = take n b).

(** Little-endian value of a byte string (the ESP32 is little-endian). *)
Fixpoint le_value (bs : list byte) : N :=
  match bs with
  | [] => 0
  | b :: bs' => (Byte.to_N b + 256 * le_value bs')%N
  end.

(** ** esp32-swarm-firmware.c *)
Module Firmware.

Definition NODE_ID_LENGTH : nat := 6.
Definition MAX_PEERS : nat := 20.
Definition AI_MODEL_OUTPUT_SIZE : nat := 32.

(** [sizeof(float)] and [sizeof(beacon.capabilities)]: the capability vector
    is only ever moved with [memcpy], so it is kept as its byte image. *)
Definition sizeof_float : nat := 4.
Definition sizeof_capabilities : nat := AI_MODEL_OUTPUT_SIZE * sizeof_float.

(** [typedef struct { ... } SwarmPeer] *)
Record SwarmPeer := mkPeer {
  mac_address : list byte;     (* uint8_t[6] *)
  rssi : Z;                    (* int8_t *)
  last_seen : N;               (* uint32_t *)
  is_active : bool;
  capabilities : list byte     (* float[AI_MODEL_OUTPUT_SIZE] *)
}.

(** [typedef struct { ... } BeaconPacket] *)
Record BeaconPacket := mkBeacon {
  sender_id : list byte;         (* uint8_t[NODE_ID_LENGTH] *)
  beacon_capabilities : list byte; (* float[AI_MODEL_OUTPUT_SIZE] *)
  timestamp : N                  (* uint32_t *)
}.

(** Layout of [BeaconPacket] on the 32-bit target: [capabilities] is
    4-byte aligned, so two bytes of padding follow the six of [sender_id]. *)
Definition offsetof_sender_id : nat := 0.
Definition offsetof_capabilities : nat := 8.
Definition offsetof_timestamp : nat := offsetof_capabilities + sizeof_capabilities.
Definition sizeof_BeaconPacket : nat := offsetof_timestamp + 4.

(** [for (int i = 0; i < MAX_PEERS; i++) if (test(peers[i])) { ...; break; }]:
    the index at which the loop fires, scanning from [i] for [fuel] more
    iterations. *)
Fixpoint scan_from (test : SwarmPeer → bool) (peers : list SwarmPeer)
    (i fuel : nat) : option nat :=
  match fuel with
  | 0 => None
  | S fuel' =>
      match peers !! i with
      | Some p => if test p then Some i else scan_from test peers (S i) fuel'
      | None => None
      end
  end.

Definition first_slot (test : SwarmPeer → bool) (peers : list SwarmPeer) : option nat :=
  scan_from test peers 0 MAX_PEERS.

(** Body of the first loop: the slot whose identity matched. *)
Definition refresh (beacon : BeaconPacket) (p : SwarmPeer) : SwarmPeer :=
  {| mac_address := mac_address p;
     rssi := rssi p;
     last_seen := timestamp beacon;
     is_active := true;
     capabilities :=
       memcpy (capabilities p) (beacon_capabilities beacon) sizeof_capabilities |}.

(** Body of the second loop: the first inactive slot is populated. *)
Definition populate (beacon : BeaconPacket) (p : SwarmPeer) : SwarmPeer :=
  {| mac_address := memcpy (mac_address p) (sender_id beacon) NODE_ID_LENGTH;
     rssi := rssi p;
     last_seen := timestamp beacon;
     is_active := true;
     capabilities :=
       memcpy (capabilities p) (beacon_capabilities beacon) sizeof_capabilities |}.

Definition matches (beacon : BeaconPacket) (p : SwarmPeer) : bool :=
  memcmp_eq (mac_address p) (sender_id beacon) NODE_ID_LENGTH.

Definition inactive (p : SwarmPeer) : bool := negb (is_active p).

(** [SwarmIntelligenceNode::processBeacon] on the [peers] member. *)
Definition processBeacon (beacon : BeaconPacket) (peers : list SwarmPeer)
    : list SwarmPeer :=
  match first_slot (matches beacon) peers with
  | Some i => alter (refresh beacon) i peers
  | None =>
      match first_slot inactive peers with
      | Some i => alter (populate beacon) i peers
      | None => peers
      end
  end.

(** [memcpy(&beacon, data, len)] with [len == sizeof(BeaconPacket)]. *)
Definition beacon_of_frame (data : list byte) : BeaconPacket :=
  {| sender_id := take NODE_ID_LENGTH (drop offsetof_sender_id data);
     beacon_capabilities := take sizeof_capabilities (drop offsetof_capabilities data);
     timestamp := le_value (take 4 (drop offsetof_timestamp data)) |}.

(** The lambda registered with [esp_now_register_recv_cb].  The result pairs
    the [processBeacon] invocations the delivery makes with the peer table it
    leaves behind. *)
Definition recv_cb (mac_addr data : list byte) (len : Z) (peers : list SwarmPeer)
    : list BeaconPacket * list SwarmPeer :=
  if bool_decide (len = Z.of_nat sizeof_BeaconPacket)
  then let beacon := beacon_of_frame data in
       ([beacon], processBeacon beacon peers)
  else ([], peers).

(** The table a sequence of beacons leaves. *)
Definition after_beacons (beacons : list BeaconPacket) (peers : list SwarmPeer)
    : list SwarmPeer :=
  foldl (λ table beacon, processBeacon beacon table) peers beacons.

Definition active_count (peers : list SwarmPeer) : nat :=
  length (filter (λ p, is_active p = true) peers).

End Firmware.

(** ** FileManager.hpp *)
Module FileManager.

Inductive FileOp := READ | WRITE | DELETE | LIST | STATUS.

(** A [uint8_t*] with the bytes behind it; [None] is [nullptr]. *)
Definition buffer := option (list byte).
Definition bytes_of (p : buffer) : list byte := default [] p.

Record FileRequest := mkRequest {
  operation : FileOp;
  filename : string;
  data : buffer;
  length : nat;         (* size_t *)
  requestId : N         (* uint32_t *)
}.

Record FileResponse := mkResponse {
  success : bool;
  message : string;
  rdata : buffer;       (* FileResponse::data *)
  rlength : nat;        (* FileResponse::length *)
  rrequestId : N        (* FileResponse::requestId *)
}.

(** [FileManager::requestRead] and [requestWrite]: the request each one
    enqueues. *)
Definition requestRead (filename : string) (requestId : N) : FileRequest :=
  {| operation := READ; filename := filename; data := None; length := 0;
     requestId := requestId |}.

Definition requestWrite (filename : string) (data : list byte) (length : nat)
    (requestId : N) : FileRequest :=
  {| operation := WRITE; filename := filename; data := Some data;
     length := length; requestId := requestId |}.

(** [std::string::c_str()] as [fopen] reads it: up to the first NUL. *)
Fixpoint c_str (s : string) : string :=
  match s with
  | EmptyString => EmptyString
  | String c s' => if Ascii.eqb c Ascii.zero then EmptyString else String c (c_str s')
  end.

(** The mounted filesystem: file contents by path. *)
Abbreviation Files := (gmap string (list byte)).

(** What the storage device does during one request: whether [fopen] on an
    openable path succeeds, and how many bytes at most [fread] / [fwrite]
    report as moved before they stop. *)
Record IoOutcome := mkIo { opens : bool; moves : nat }.

Definition no_fault (n : nat) : IoOutcome := {| opens := true; moves := n |}.

(** The device as a WRITE meets it.  [fwrite] goes through the stdio buffer,
    so the count it returns says what was accepted, not what is in the file:
    [lands] is how many bytes at most are in the file once [fclose] has
    returned.  The handler does not look at the result of [fclose]. *)
Record Device := mkDevice { port : IoOutcome; lands : nat }.

(** A device that stores what it accepts. *)
Definition sound (n : nat) : Device := {| port := no_fault n; lands := n |}.

(** [FileManager::handleRead].  [fopen(.., "rb")] needs the file to exist;
    [size] is the file's length ([fseek]/[ftell]); [fread] fills the first
    [read] bytes of the buffer. *)
Definition handleRead (io : IoOutcome) (request : FileRequest) (fs : Files)
    : FileResponse :=
  match fs !! c_str (filename request) with
  | Some content =>
      if opens io then
        let size := List.length content in
        let read := Nat.min (moves io) size in
        {| success := bool_decide (read = size);
           message := if bool_decide (read = size) then "Success" else "Read error";
           rdata := Some (take read content);
           rlength := read;
           rrequestId := requestId request |}
      else
        {| success := false; message := "Failed to open file"; rdata := None;
           rlength := 0; rrequestId := requestId request |}
  | None =>
      {| success := false; message := "Failed to open file"; rdata := None;
         rlength := 0; rrequestId := requestId request |}
  end.

(** [FileManager::handleWrite].  [fopen(.., "wb")] creates or truncates the
    file; [fwrite] reports [written] of the [request.length] bytes, and the
    response is built from that count; what the file holds after [fclose],
    whose result is dropped, is the part of them that landed.  Files are
    keyed by the C string handed to [fopen]; how the filesystem resolves a
    name further (case, separators) is not part of the model. *)
Definition handleWrite (dev : Device) (request : FileRequest) (fs : Files)
    : FileResponse * Files :=
  if opens (port dev) then
    let source := take (length request) (bytes_of (data request)) in
    let written := Nat.min (moves (port dev)) (List.length source) in
    ({| success := bool_decide (written = length request);
        message := if bool_decide (written = length request)
                   then "Success" else "Write error";
        rdata := None;
        rlength := written;
        rrequestId := requestId request |},
     <[c_str (filename request) := take (Nat.min (lands dev) written) source]> fs)
  else
    ({| success := false; message := "Failed to create file"; rdata := None;
        rlength := 0; rrequestId := requestId request |}, fs).

(** What [fileTask] owns between iterations: the filesystem it serves and its
    local [response], which lives across iterations of the [while] loop. *)
Record TaskState := mkTask { files : Files; response : FileResponse }.

(** One iteration of the loop in [FileManager::fileTask] for a dequeued
    [request]: the [switch] has cases for [READ] and [WRITE] only, and the
    [xQueueSend] after it sends [response] whatever the case was. *)
Definition fileTask_step (dev : Device) (request : FileRequest) (st : TaskState)
    : TaskState :=
  match operation request with
  | READ => {| files := files st; response := handleRead (port dev) request (files st) |}
  | WRITE =>
      let '(r, fs') := handleWrite dev request (files st) in
      {| files := fs'; response := r |}
  | DELETE | LIST | STATUS => st
  end.

(** The kinds the [switch] in [fileTask] has a case for. *)
Definition dispatched (op : FileOp) : bool :=
  match op with READ | WRITE => true | DELETE | LIST | STATUS => false end.

(** The task on the requests the queue delivers, in order (each with what the
    device does while it is served): each request with the response enqueued
    for it, and the final state. *)
Fixpoint fileTask (reqs : list (Device * FileRequest)) (st : TaskState)
    : list (FileRequest * FileResponse) * TaskState :=
  match reqs with
  | [] => ([], st)
  | (dev, request) :: rest =>
      let st' := fileTask_step dev request st in
      let '(sent, final) := fileTask rest st' in
      ((request, response st') :: sent, final)
  end.

(** The requests the worker can be handed: [requestQueue] is private, and
    [requestRead] and [requestWrite] are the only functions that send to it. *)
Inductive submitted : FileRequest → Prop :=
  | submitted_read (filename : string) (requestId : N) :
      submitted (requestRead filename requestId)
  | submitted_write (filename : string) (data : list byte) (length : nat)
      (requestId : N) :
      submitted (requestWrite filename data length requestId).

End FileManager.

(** ** ModelRuntime.hpp *)
Module ModelRuntime.

Inductive ModelState := UNLOADED | LOADING | READY | RUNNING | ERROR.

Inductive ModelOp := LOAD | UNLOAD | RUN | STATUS.

Definition buffer := option (list byte).
Definition bytes_of (p : buffer) : list byte := default [] p.

Record ModelRequest := mkRequest {
  operation : ModelOp;
  modelId : string;
  inputData : buffer;
  inputLength : nat;     (* size_t *)
  requestId : N          (* uint32_t *)
}.

Record ModelResponse := mkResponse {
  success : bool;
  message : string;
  outputData : buffer;
  outputLength : nat;
  rrequestId : N;        (* ModelResponse::requestId *)
  rstate : ModelState    (* ModelResponse::state *)
}.

(** [ModelRuntime::requestModelLoad] and [requestInference]. *)
Definition requestModelLoad (modelId : string) (requestId : N) : ModelRequest :=
  {| operation := LOAD; modelId := modelId; inputData := None; inputLength := 0;
     requestId := requestId |}.

Definition requestInference (modelId : string) (inputData : list byte)
    (inputLength : nat) (requestId : N) : ModelRequest :=
  {| operation := RUN; modelId := modelId; inputData := Some inputData;
     inputLength := inputLength; requestId := requestId |}.

(** A [const tflite::Model*] that is not null: the model's flatbuffer. *)
Definition Model := list byte.

(** The collaborators the handlers call and the header does not implement:
    the storage lookup behind [loadModelFromStorage] ("implementation depends
    on your storage system") and the TFLite Micro interpreter.
    - [loadModelFromStorage id]: [None] is [nullptr];
    - [AllocateTensors model arenaSize]: [None] is a status other than
      [kTfLiteOk]; otherwise the input tensor as allocated, [input(0)->bytes]
      being its length;
    - [Invoke model input]: [None] is a status other than [kTfLiteOk];
      otherwise the bytes of the output tensor. *)
Record Engine := mkEngine {
  loadModelFromStorage : string → option Model;
  AllocateTensors : Model → N → option (list byte);
  Invoke : Model → list byte → option (list byte)
}.

(** The body [loadModelFromStorage] has in the header. *)
Definition loadModelFromStorage_placeholder : string → option Model := λ _, None.

(** [struct ModelContext]: the interpreter is kept as its model and the current
    contents of its input tensor. *)
Record ModelContext := mkContext {
  model : Model;
  input_tensor : list byte;      (* interpreter->input(0)->data.raw, ->bytes long *)
  tensorArenaSize : N;            (* size_t *)
  state : ModelState
}.

Abbreviation Models := (gmap string ModelContext).

(** Calls a handler makes on its collaborators and on raw memory, in order. *)
Inductive Effect :=
  | StorageLookup (id : string)
  | TensorAllocation (arenaSize : N)
  | InputCopy (tensor_bytes : nat) (copied : nat)  (* memcpy of [copied] bytes
                                                      to a tensor of [tensor_bytes] *)
  | Invocation (input : list byte).

Definition past_the_end (e : Effect) : nat :=
  match e with
  | InputCopy tensor_bytes copied => copied - tensor_bytes
  | _ => 0
  end.

Record Outcome := mkOutcome {
  reply : ModelResponse;
  table : Models;
  effects : list Effect
}.

Definition failed (msg : string) (request : ModelRequest) (st : ModelState)
    : ModelResponse :=
  {| success := false; message := msg; outputData := None; outputLength := 0;
     rrequestId := requestId request; rstate := st |}.

Definition succeeded (msg : string) (request : ModelRequest) (out : buffer)
    (len : nat) : ModelResponse :=
  {| success := true; message := msg; outputData := out; outputLength := len;
     rrequestId := requestId request; rstate := READY |}.

Definition arena_bytes : N := 32 * 1024.

(** [ModelRuntime::handleModelLoad].  The two [throw]s land in the [catch],
    which builds the failed response from [e.what()]; [loadedModels] is
    assigned on the success path only. *)
Definition handleModelLoad (E : Engine) (request : ModelRequest) (loadedModels : Models)
    : Outcome :=
  match loadedModels !! modelId request with
  | Some _ =>
      {| reply := succeeded "Model already loaded" request None 0;
         table := loadedModels; effects := [] |}
  | None =>
      match loadModelFromStorage E (modelId request) with
      | None =>
          {| reply := failed "Failed to load model file" request ERROR;
             table := loadedModels;
             effects := [StorageLookup (modelId request)] |}
      | Some m =>
          match AllocateTensors E m arena_bytes with
          | None =>
              {| reply := failed "Failed to allocate tensors" request ERROR;
                 table := loadedModels;
                 effects := [StorageLookup (modelId request);
                             TensorAllocation arena_bytes] |}
          | Some tensor =>
              {| reply := succeeded "Model loaded successfully" request None 0;
                 table := <[modelId request :=
                              {| model := m; input_tensor := tensor;
                                 tensorArenaSize := arena_bytes;
                                 state := READY |}]> loadedModels;
                 effects := [StorageLookup (modelId request);
                             TensorAllocation arena_bytes] |}
          end
      end
  end.

(** The input tensor after [memcpy(inputTensor->data.raw, request.inputData,
    request.inputLength)]: the part of the stored image that lies inside it.
    The call itself stores all [request.inputLength] bytes; the handler's
    [InputCopy] effect records how many, and so how many go past the end. *)
Definition copy_input (request : ModelRequest) (context : ModelContext) : list byte :=
  take (length (input_tensor context))
       (memcpy (input_tensor context) (bytes_of (inputData request))
               (inputLength request)).

(** [ModelRuntime::handleInference].  [context] is a reference into
    [loadedModels], so the assignments to [context.state] and the copy into
    the input tensor update the stored entry; the [catch] does not touch it. *)
Definition handleInference (E : Engine) (request : ModelRequest) (loadedModels : Models)
    : Outcome :=
  match loadedModels !! modelId request with
  | None =>
      {| reply := failed "Model not loaded" request UNLOADED;
         table := loadedModels; effects := [] |}
  | Some context =>
      let tensor := copy_input request context in
      let calls := [InputCopy (length (input_tensor context)) (inputLength request);
                    Invocation tensor] in
      match Invoke E (model context) tensor with
      | None =>
          {| reply := failed "Inference failed" request ERROR;
             table := <[modelId request :=
                          {| model := model context; input_tensor := tensor;
                             tensorArenaSize := tensorArenaSize context;
                             state := RUNNING |}]> loadedModels;
             effects := calls |}
      | Some output =>
          {| reply := succeeded "Inference successful" request (Some output)
                        (length output);
             table := <[modelId request :=
                          {| model := model context; input_tensor := tensor;
                             tensorArenaSize := tensorArenaSize context;
                             state := READY |}]> loadedModels;
             effects := calls |}
      end
  end.

(** A request whose input lies within the input tensor of the context it
    runs on and within the buffer it points to.  For such a request the
    [memcpy] stays inside the tensor; for any other, [copy_input] gives only
    what ends up inside the tensor, and what the bytes stored past its end do
    to the arena and beyond is not part of the model. *)
Definition fits (request : ModelRequest) (context : ModelContext) : Prop :=
  inputLength request ≤ length (input_tensor context) ∧
  inputLength request ≤ length (bytes_of (inputData request)).

(** Modelled from the spec: [ModelRuntime::handleModelUnload], which
    [modelTask] calls and the header does not define.  "UNLOAD(id): releases
    the context's scratch arena and engine, removes the table entry,
    transitions to Unloaded"; the Response carries the "correlation id
    matching the originating request" and "the resulting lifecycle state". *)
Definition handleModelUnload (request : ModelRequest) (loadedModels : Models)
    : Outcome :=
  {| reply := {| success := true; message := "Model unloaded"; outputData := None;
                 outputLength := 0; rrequestId := requestId request;
                 rstate := UNLOADED |};
     table := delete (modelId request) loadedModels;
     effects := [] |}.

(** The states the handlers leave in stored contexts. *)
Definition settled (models : Models) : Prop :=
  map_Forall (λ _ context, state context = READY ∨ state context = RUNNING) models.

(** What [modelTask] owns between iterations. *)
Record TaskState := mkTask { loaded : Models; response : ModelResponse }.

(** One iteration of the loop in [ModelRuntime::modelTask]: the [switch] has
    no case for [STATUS], and [response] is sent after it in every case. *)
Definition modelTask_step (E : Engine) (request : ModelRequest) (st : TaskState)
    : TaskState :=
  match operation request with
  | LOAD =>
      let o := handleModelLoad E request (loaded st) in
      {| loaded := table o; response := reply o |}
  | RUN =>
      let o := handleInference E request (loaded st) in
      {| loaded := table o; response := reply o |}
  | UNLOAD =>
      let o := handleModelUnload request (loaded st) in
      {| loaded := table o; response := reply o |}
  | STATUS => st
  end.

(** The kinds the [switch] in [modelTask] has a case for. *)
Definition dispatched (op : ModelOp) : bool :=
  match op with LOAD | RUN | UNLOAD => true | STATUS => false end.

(** The task on the requests the queue delivers, in order: each request with
    the response enqueued for it, and the final state. *)
Fixpoint modelTask (E : Engine) (reqs : list ModelRequest) (st : TaskState)
    : list (ModelRequest * ModelResponse) * TaskState :=
  match reqs with
  | [] => ([], st)
  | request :: rest =>
      let st' := modelTask_step E request st in
      let '(sent, final) := modelTask E rest st' in
      ((request, response st') :: sent, final)
  end.

(** The requests the worker can be handed: [requestQueue] is private, and
    [requestModelLoad] and [requestInference] are the only functions that
    send to it. *)
Inductive submitted : ModelRequest → Prop :=
  | submitted_load (modelId : string) (requestId : N) :
      submitted (requestModelLoad modelId requestId)
  | submitted_run (modelId : string) (inputData : list byte) (inputLength : nat)
      (requestId : N) :
      submitted (requestInference modelId inputData inputLength requestId).

(** Every RUN among [reqs] fits the context it finds when the worker, in
    state [st], gets to it. *)
Fixpoint served_in_bounds (E : Engine) (reqs : list ModelRequest) (st : TaskState)
    : Prop :=
  match reqs with
  | [] => True
  | request :: rest =>
      (operation request = RUN →
       ∀ context, loaded st !! modelId request = Some context →
                  fits request context) ∧
      served_in_bounds E rest (modelTask_step E request st)
  end.

End ModelRuntime.

(** ** Concrete nodes, used to run the definitions *)
Module Scenario.

Import Firmware.

Definition blank_peer : SwarmPeer :=
  {| mac_address := replicate NODE_ID_LENGTH x00; rssi := 0; last_seen := 0;
     is_active := false; capabilities := replicate sizeof_capabilities x00 |}.

(** A peer table as zero-initialised memory. *)
Definition blank_table : list SwarmPeer := replicate MAX_PEERS blank_peer.

Definition id_of (n : byte) : list byte := [x02; x00; x00; x00; x00; n].

Definition beacon_from (sender : list byte) (fill : byte) (t : N) : BeaconPacket :=
  {| sender_id := sender;
     beacon_capabilities := replicate sizeof_capabilities fill;
     timestamp := t |}.

Definition known_peer (sender : list byte) (strength : Z) : SwarmPeer :=
  {| mac_address := sender; rssi := strength; last_seen := 100;
     is_active := true; capabilities := replicate sizeof_capabilities x00 |}.

(** Two tables that differ in the recorded signal strength of slot 0 only. *)
Definition table_near : list SwarmPeer := <[0 := known_peer (id_of x01) (-40)]> blank_table.
Definition table_far : list SwarmPeer := <[0 := known_peer (id_of x01) (-70)]> blank_table.

(** Every slot active, identities 02:00:00:00:00:00 .. 02:00:00:00:00:13. *)
Definition full_table : list SwarmPeer :=
  (λ n, known_peer (id_of n) (-50)) <$>
    [x00; x01; x02; x03; x04; x05; x06; x07; x08; x09;
     x0a; x0b; x0c; x0d; x0e; x0f; x10; x11; x12; x13].

(** A frame of [sizeof(BeaconPacket)] bytes from 02:00:00:00:00:01. *)
Definition frame_ok : list byte :=
  id_of x01 ++ [x00; x00] ++ replicate sizeof_capabilities x3f ++ [xc8; x00; x00; x00].

Definition frame_short : list byte := id_of x01 ++ [x00; x00; x3f; x3f].

End Scenario.

Module StorageScenario.

Import FileManager.

Definition path : string := "/spiffs/model.tflite".
Definition blob : list byte := [x01; x02; x03].

(** A filesystem that holds [blob] at [path] and an older, longer file at
    ["/spiffs/log"]. *)
Definition disk : Files :=
  {[ path := blob; "/spiffs/log" := [x61; x62; x63; x64; x65] ]}.

(** Some value of the task's [response] variable before its first request. *)
Definition initial_response : FileResponse :=
  {| success := false; message := ""; rdata := None; rlength := 0; rrequestId := 0 |}.

(** A request of a kind [FileOp] declares and the public functions do not
    build. *)
Definition delete_request (filename : string) (requestId : N) : FileRequest :=
  {| operation := DELETE; filename := filename; data := None; length := 0;
     requestId := requestId |}.

End StorageScenario.

Module ModelScenario.

Import ModelRuntime.

(** An engine with one stored model, ["gesture"], whose input tensor holds
    four bytes; the invocation rejects an input that starts with a zero byte
    and otherwise answers with the first two input bytes. *)
Definition toy : Engine :=
  {| loadModelFromStorage :=
       λ id, if bool_decide (id = "gesture") then Some [x54; x46; x4c; x33] else None;
     AllocateTensors := λ _ _, Some (replicate 4 x00);
     Invoke := λ _ input,
       match input with
       | x00 :: _ => None
       | _ => Some (take 2 input)
       end |}.

(** The same storage with an interpreter that cannot bind its tensors. *)
Definition cramped : Engine :=
  {| loadModelFromStorage := loadModelFromStorage toy;
     AllocateTensors := λ _ _, None;
     Invoke := Invoke toy |}.

Definition initial_response : ModelResponse :=
  {| success := false; message := ""; outputData := None; outputLength := 0;
     rrequestId := 0; rstate := UNLOADED |}.

(** The model table once ["gesture"] has been loaded. *)
Definition gesture_loaded : Models :=
  table (handleModelLoad toy (requestModelLoad "gesture" 1) ∅).

Definition eight_bytes : list byte := [x01; x02; x03; x04; x05; x06; x07; x08].
Definition bad_input : list byte := [x00; x00; x00; x00].
Definition good_input : list byte := [x09; x08; x07; x06].

End ModelScenario.

(** ** esp32-swarm-firmware.c: the send path and the node loop *)
Module Beaconing.

Import Firmware.

Definition byte_of (n : N) : byte := default x00 (Byte.of_N (n mod 256)).

(** A [uint32_t] as it lies in memory, least significant byte first. *)
Definition le_bytes32 (n : N) : list byte :=
  [byte_of n; byte_of (n / 256); byte_of (n / 65536); byte_of (n / 16777216)].

(** The [int64_t] of [esp_timer_get_time()] converted to [uint32_t]. *)
Definition uint32_of (t : Z) : N := Z.to_N (t mod 2 ^ 32).

(** [memcpy((uint8_t* )&object + off, src, n)] on the bytes of an object. *)
Definition store_at (object : list byte) (off : nat) (src : list byte) (n : nat)
    : list byte :=
  take off object ++ memcpy (drop off object) src n.

(** [SwarmIntelligenceNode::sendBeacon]: the frame handed to [esp_now_send],
    if any.  [stack] is what the memory of the local [beacon] holds on entry
    (the struct is not initialised, so its padding keeps these bytes),
    [invoke] is the output tensor after [interpreter->Invoke()], or [None]
    when the status is not [kTfLiteOk], and [now] is [esp_timer_get_time()]. *)
Definition sendBeacon (node_id stack : list byte) (invoke : option (list byte))
    (now : Z) : option (list byte) :=
  let beacon := store_at stack offsetof_sender_id node_id NODE_ID_LENGTH in
  match invoke with
  | None => None
  | Some output =>
      let beacon := store_at beacon offsetof_capabilities output sizeof_capabilities in
      let beacon := store_at beacon offsetof_timestamp (le_bytes32 (uint32_of now)) 4 in
      Some (take sizeof_BeaconPacket beacon)
  end.

(** What one iteration of the loop in [run] meets: the stack bytes under
    [beacon], the engine's answer and the clock. *)
Record Tick := mkTick {
  stack : list byte;
  engine : option (list byte);
  clock : Z
}.

(** [SwarmIntelligenceNode::run], cut after the iterations given: the frames
    broadcast, in order. *)
Definition run (node_id : list byte) (ticks : list Tick) : list (list byte) :=
  omap (λ tick, sendBeacon node_id (stack tick) (engine tick) (clock tick)) ticks.

(** A peer's table after the transport has delivered [frames] to its receive
    callback, each with its length.  The callback ignores the source address
    the transport passes. *)
Definition deliver (frames : list (list byte)) (peers : list SwarmPeer)
    : list SwarmPeer :=
  foldl (λ table frame, (recv_cb [] frame (Z.of_nat (length frame)) table).2)
        peers frames.

(** The slots hold pairwise distinct identities as far as active slots go: the
    identity of an active slot is in no slot before it. *)
Definition first_holders (peers : list SwarmPeer) : Prop :=
  ∀ i k p q, i < k → peers !! i = Some p → peers !! k = Some q →
    is_active q = true →
    memcmp_eq (mac_address p) (mac_address q) NODE_ID_LENGTH = false.

End Beaconing.

Module BeaconScenario.

Import Firmware Beaconing.

Definition node : list byte := Scenario.id_of x07.

(** Stack bytes under the local [beacon], and an output tensor of 32 floats. *)
Definition dirty_stack : list byte := replicate sizeof_BeaconPacket xaa.
Definition output_tensor : list byte := replicate sizeof_capabilities x3f.

(** Three iterations of the node loop; the engine fails in the second. *)
Definition ticks : list Tick :=
  [ {| stack := dirty_stack; engine := Some output_tensor; clock := 1000 |};
    {| stack := dirty_stack; engine := None; clock := 5001000 |};
    {| stack := dirty_stack; engine := Some output_tensor; clock := 10001000 |} ].

(** Beacons of three peers, in the order they arrive. *)
Definition arrivals : list BeaconPacket :=
  [Scenario.beacon_from (Scenario.id_of x0a) x3f 100;
   Scenario.beacon_from (Scenario.id_of x0b) x3f 200;
   Scenario.beacon_from (Scenario.id_of x0c) x3f 300].

End BeaconScenario.

Module HeaderScenario.

Import ModelRuntime.

(** The toy interpreter behind the storage lookup as the header has it. *)
Definition as_shipped : Engine :=
  {| loadModelFromStorage := loadModelFromStorage_placeholder;
     AllocateTensors := AllocateTensors ModelScenario.toy;
     Invoke := Invoke ModelScenario.toy |}.

(** Requests as the public functions build them. *)
Definition session : list ModelRequest :=
  [requestModelLoad "gesture" 1;
   requestInference "gesture" ModelScenario.good_input 4 2;
   requestInference "gesture" [x05; x06] 2 3].

End HeaderScenario.

(** * Properties *)

(** ** Raw memory *)

Lemma memcpy_whole (dst src : list byte) :
  length dst = length src → memcpy dst src (length src) = src.
Proof.
  intros Hlen. unfold memcpy. cbn zeta.
  rewrite firstn_all, drop_ge by lia. apply app_nil_r.
Qed.

(** Storing [n] bytes over an object and reading [n] bytes back. *)
Lemma take_memcpy (dst src : list byte) (n : nat) :
  length src = n → take n (memcpy dst src n) = src.
Proof.
  intros Hlen. unfold memcpy. cbn zeta. subst n.
  rewrite firstn_all. by rewrite take_app_length.
Qed.

(** ** Peer directory *)
Section PeerDirectory.

Import Firmware.

Implicit Types (peers : list SwarmPeer) (beacon : BeaconPacket) (p q : SwarmPeer).

(** Where a [for .. break] loop fires: at the first index in range whose slot
    passes the test. *)
Lemma scan_from_Some test peers i fuel k :
  scan_from test peers i fuel = Some k →
  i ≤ k < i + fuel ∧
  (∃ p, peers !! k = Some p ∧ test p = true) ∧
  (∀ j q, i ≤ j < k → peers !! j = Some q → test q = false).
Proof.
  revert i. induction fuel as [|fuel IH]; intros i; simpl; [done|].
  destruct (peers !! i) as [p|] eqn:Hp; [|done].
  destruct (test p) eqn:Ht.
  - intros [= <-]. split; [lia|]. split; [eauto|]. intros j q ?; lia.
  - intros Hs. apply IH in Hs as (Hk & Hfound & Hbefore).
    split; [lia|]. split; [done|].
    intros j q Hj Hq. destruct (decide (j = i)) as [->|Hne].
    + congruence.
    + apply (Hbefore j q); [lia|done].
Qed.

Lemma scan_from_first test peers i fuel k p :
  i ≤ k < i + fuel → peers !! k = Some p → test p = true →
  (∀ j q, i ≤ j < k → peers !! j = Some q → test q = false) →
  scan_from test peers i fuel = Some k.
Proof.
  revert i. induction fuel as [|fuel IH]; intros i Hk Hp Ht Hbefore; simpl; [lia|].
  destruct (decide (i = k)) as [->|Hne].
  - by rewrite Hp, Ht.
  - assert (is_Some (peers !! i)) as [q Hq].
    { apply lookup_lt_is_Some. apply lookup_lt_Some in Hp. lia. }
    rewrite Hq, (Hbefore i q) by (done || lia).
    apply IH; [lia|done|done|]. intros j q' ?. apply Hbefore. lia.
Qed.

Lemma scan_from_None test peers i fuel :
  (∀ j q, i ≤ j → peers !! j = Some q → test q = false) →
  scan_from test peers i fuel = None.
Proof.
  revert i. induction fuel as [|fuel IH]; intros i Hall; simpl; [done|].
  destruct (peers !! i) as [p|] eqn:Hp; [|done].
  rewrite (Hall i p) by done. apply IH. intros j q ?. apply Hall. lia.
Qed.

Lemma scan_from_None_inv test peers i fuel :
  scan_from test peers i fuel = None →
  ∀ j q, i ≤ j < i + fuel → peers !! j = Some q → test q = false.
Proof.
  revert i. induction fuel as [|fuel IH]; intros i; simpl; [intros _ j q ?; lia|].
  destruct (peers !! i) as [p|] eqn:Hp.
  - destruct (test p) eqn:Ht; [done|]. intros Hrest j q Hj Hq.
    destruct (decide (j = i)) as [->|Hne]; [congruence|].
    apply (IH (S i) Hrest j q); [lia|done].
  - intros _ j q Hj Hq. apply lookup_ge_None in Hp.
    apply lookup_lt_Some in Hq. lia.
Qed.

Lemma matches_same_sender beacon beacon' :
  sender_id beacon' = sender_id beacon →
  ∀ p, matches beacon' p = matches beacon p.
Proof. unfold matches. by intros ->. Qed.

Lemma length_processBeacon beacon peers :
  length (processBeacon beacon peers) = length peers.
Proof.
  unfold processBeacon.
  destruct (first_slot (matches beacon) peers); [by rewrite length_alter|].
  destruct (first_slot inactive peers); [by rewrite length_alter|done].
Qed.

Lemma active_count_le peers : active_count peers ≤ length peers.
Proof. unfold active_count. apply length_filter. Qed.

(** Rewriting a slot without changing its flag keeps the number of active
    slots. *)
Lemma active_count_alter_same (f : SwarmPeer → SwarmPeer) peers i p :
  peers !! i = Some p → is_active (f p) = is_active p →
  active_count (alter f i peers) = active_count peers.
Proof.
  unfold active_count. revert i.
  induction peers as [|x peers IH]; intros i Hi Hflag; [done|].
  destruct i as [|i].
  - injection Hi as ->.
    change (alter f 0 (p :: peers)) with (f p :: peers).
    rewrite !filter_cons, Hflag. by case_decide.
  - change (alter f (S i) (x :: peers)) with (x :: alter f i peers).
    rewrite !filter_cons. specialize (IH i Hi Hflag).
    case_decide; simpl; by rewrite IH.
Qed.

(** Marking an inactive slot active adds one. *)
Lemma active_count_alter_activate (f : SwarmPeer → SwarmPeer) peers i p :
  peers !! i = Some p → is_active p = false → is_active (f p) = true →
  active_count (alter f i peers) = S (active_count peers).
Proof.
  unfold active_count. revert i.
  induction peers as [|x peers IH]; intros i Hi Hoff Hon; [done|].
  destruct i as [|i].
  - injection Hi as ->.
    change (alter f 0 (p :: peers)) with (f p :: peers).
    rewrite filter_cons_True by done.
    rewrite filter_cons_False by congruence. done.
  - change (alter f (S i) (x :: peers)) with (x :: alter f i peers).
    rewrite !filter_cons. specialize (IH i Hi Hoff Hon).
    case_decide; simpl; by rewrite IH.
Qed.

Lemma processBeacon_dropped beacon peers :
  Forall (λ p, is_active p = true ∧ matches beacon p = false) peers →
  processBeacon beacon peers = peers.
Proof.
  intros Hall. unfold processBeacon, first_slot.
  rewrite Forall_lookup in Hall.
  rewrite scan_from_None by (intros j q _ Hq; by apply (Hall j q)).
  rewrite scan_from_None; [done|].
  intros j q _ Hq. unfold inactive. by destruct (Hall j q Hq) as [-> _].
Qed.

Lemma length_after_beacons beacons peers :
  length (after_beacons beacons peers) = length peers.
Proof.
  unfold after_beacons. revert peers.
  induction beacons as [|b beacons IH]; intros peers; simpl; [done|].
  by rewrite IH, length_processBeacon.
Qed.

(** C7. The peer table keeps its [MAX_PEERS] = 20 slots, and so at most 20
    active entries, through any sequence of received beacons; and a beacon
    that arrives when every slot is active and no slot has its identity
    leaves the table exactly as it was. *)
Theorem directory_capacity peers (beacons : list BeaconPacket) :
  length peers = MAX_PEERS →
  MAX_PEERS = 20 ∧
  length (after_beacons beacons peers) = MAX_PEERS ∧
  active_count (after_beacons beacons peers) ≤ MAX_PEERS ∧
  (∀ beacon,
     Forall (λ p, is_active p = true ∧ matches beacon p = false)
            (after_beacons beacons peers) →
     processBeacon beacon (after_beacons beacons peers) = after_beacons beacons peers).
Proof.
  intros Hlen. split; [done|].
  pose proof (length_after_beacons beacons peers) as Hkeep.
  split; [congruence|]. split.
  - rewrite <- Hlen, <- Hkeep. apply active_count_le.
  - intros beacon. apply processBeacon_dropped.
Qed.

(** Witness for C7: the full table of the scenario, after a beacon from an
    identity it does not hold, drops a further one. *)
Lemma directory_capacity_witness :
  length Scenario.full_table = MAX_PEERS ∧
  length (after_beacons [Scenario.beacon_from (Scenario.id_of x20) x3f 200]
            Scenario.full_table) = MAX_PEERS ∧
  processBeacon (Scenario.beacon_from (Scenario.id_of x21) x3f 300)
    (after_beacons [Scenario.beacon_from (Scenario.id_of x20) x3f 200]
       Scenario.full_table)
  = after_beacons [Scenario.beacon_from (Scenario.id_of x20) x3f 200]
      Scenario.full_table.
Proof.
  destruct (directory_capacity Scenario.full_table
              [Scenario.beacon_from (Scenario.id_of x20) x3f 200] eq_refl)
    as (_ & Hlen & _ & Hdrop).
  split; [reflexivity|]. split; [exact Hlen|].
  apply Hdrop. apply (bool_decide_unpack _). vm_compute. exact I.
Defined.

Lemma processBeacon_first_match peers beacon i p :
  length peers = MAX_PEERS →
  peers !! i = Some p →
  matches beacon p = true →
  (∀ j q, j < i → peers !! j = Some q → matches beacon q = false) →
  processBeacon beacon peers = alter (refresh beacon) i peers.
Proof.
  intros Hlen Hp Hm Hfirst. unfold processBeacon, first_slot.
  rewrite (scan_from_first (matches beacon) peers 0 MAX_PEERS i p); [done| |done|done|].
  - apply lookup_lt_Some in Hp. lia.
  - intros j q ?. apply Hfirst. lia.
Qed.

(** Peer upsert idempotence: a second beacon from the identity of the one
    just processed is absorbed by the slot that one went to (or dropped with
    it), so the number of active entries stays. *)
Lemma repeated_beacon_keeps_active_count peers beacon beacon' :
  length peers = MAX_PEERS →
  length (sender_id beacon) = NODE_ID_LENGTH →
  sender_id beacon' = sender_id beacon →
  active_count (processBeacon beacon' (processBeacon beacon peers))
  = active_count (processBeacon beacon peers).
Proof.
  intros Hlen Hid Hsame.
  pose proof (matches_same_sender beacon beacon' Hsame) as Hm.
  unfold processBeacon at 2 3. unfold first_slot.
  destruct (scan_from (matches beacon) peers 0 MAX_PEERS) as [j|] eqn:Hfirst.
  - (* the first beacon refreshed slot [j]; so does the second *)
    apply scan_from_Some in Hfirst as (Hj & (p & Hp & Hmp) & Hbefore).
    rewrite (processBeacon_first_match _ beacon' j (refresh beacon p)).
    + apply (active_count_alter_same _ _ _ (refresh beacon p)); [|done].
      by rewrite list_lookup_alter_eq, Hp.
    + by rewrite length_alter.
    + by rewrite list_lookup_alter_eq, Hp.
    + by rewrite Hm.
    + intros i q Hi. rewrite list_lookup_alter_ne by lia.
      intros Hq. rewrite Hm. apply (Hbefore i q); [lia|done].
  - pose proof (scan_from_None_inv _ _ _ _ Hfirst) as Hnone.
    destruct (scan_from inactive peers 0 MAX_PEERS) as [j|] eqn:Hfree.
    + (* the first beacon populated slot [j]; the second refreshes it *)
      apply scan_from_Some in Hfree as (Hj & (p & Hp & Hoff) & _).
      rewrite (processBeacon_first_match _ beacon' j (populate beacon p)).
      * apply (active_count_alter_same _ _ _ (populate beacon p)); [|done].
        by rewrite list_lookup_alter_eq, Hp.
      * by rewrite length_alter.
      * by rewrite list_lookup_alter_eq, Hp.
      * rewrite Hm. unfold matches, memcmp_eq. simpl.
        apply bool_decide_eq_true. rewrite take_memcpy by done.
        rewrite <- Hid. by rewrite firstn_all.
      * intros i q Hi. rewrite list_lookup_alter_ne by lia.
        intros Hq. rewrite Hm. apply (Hnone i q); [|done].
        apply lookup_lt_Some in Hq. lia.
    + (* the first beacon was dropped; so is the second *)
      unfold processBeacon, first_slot. rewrite Hfree.
      rewrite scan_from_None; [done|].
      intros i q _ Hq. rewrite Hm. apply (Hnone i q); [|done].
      apply lookup_lt_Some in Hq. lia.
Qed.

(** C8 (amended). A beacon whose sender identity matches a slot updates
    exactly one slot in place, the first that matches: its capability vector
    and last-seen timestamp are taken from the beacon and it is marked active,
    while its identity and its signal strength stay as they were; every other
    slot is untouched, and the number of active entries does not increase when
    that slot was already active (it grows by one when the slot was not). *)
Theorem beacon_refreshes_first_match peers beacon i p :
  length peers = MAX_PEERS →
  peers !! i = Some p →
  matches beacon p = true →
  (∀ j q, j < i → peers !! j = Some q → matches beacon q = false) →
  processBeacon beacon peers !! i =
    Some {| mac_address := mac_address p;
            rssi := rssi p;
            last_seen := timestamp beacon;
            is_active := true;
            capabilities := memcpy (capabilities p) (beacon_capabilities beacon)
                              sizeof_capabilities |} ∧
  (length (capabilities p) = sizeof_capabilities →
   length (beacon_capabilities beacon) = sizeof_capabilities →
   memcpy (capabilities p) (beacon_capabilities beacon) sizeof_capabilities
   = beacon_capabilities beacon) ∧
  (∀ j, j ≠ i → processBeacon beacon peers !! j = peers !! j) ∧
  length (processBeacon beacon peers) = length peers ∧
  (is_active p = true →
   active_count (processBeacon beacon peers) = active_count peers) ∧
  (is_active p = false →
   active_count (processBeacon beacon peers) = S (active_count peers)).
Proof.
  intros Hlen Hp Hm Hfirst.
  rewrite (processBeacon_first_match peers beacon i p) by done.
  split; [by rewrite list_lookup_alter_eq, Hp|].
  split.
  { intros Hold Hnew. rewrite <- Hnew. apply memcpy_whole. congruence. }
  split; [intros j Hj; by apply list_lookup_alter_ne|].
  split; [apply length_alter|]. split.
  - intros Hon. apply (active_count_alter_same _ _ _ p); [done|]. by rewrite Hon.
  - intros Hoff. by apply (active_count_alter_activate _ _ _ p).
Qed.

(** Witness for C8 (amended): the beacon of 02:00:00:00:00:01 on a table that
    knows the peer in slot 0. *)
Lemma beacon_refreshes_first_match_witness :
  (rssi <$> processBeacon (Scenario.beacon_from (Scenario.id_of x01) x3f 200)
              Scenario.table_far !! 0) = Some (-70)%Z ∧
  (last_seen <$> processBeacon (Scenario.beacon_from (Scenario.id_of x01) x3f 200)
                   Scenario.table_far !! 0) = Some 200%N ∧
  active_count (processBeacon (Scenario.beacon_from (Scenario.id_of x01) x3f 200)
                  Scenario.table_far)
  = active_count Scenario.table_far.
Proof.
  destruct (beacon_refreshes_first_match Scenario.table_far
              (Scenario.beacon_from (Scenario.id_of x01) x3f 200) 0
              (Scenario.known_peer (Scenario.id_of x01) (-70)))
    as (Hslot & _ & _ & _ & Hcount & _).
  - reflexivity.
  - reflexivity.
  - vm_compute. reflexivity.
  - intros j q Hj. lia.
  - rewrite Hslot. split; [reflexivity|]. split; [reflexivity|].
    apply Hcount. reflexivity.
Defined.

(** Counterexample to C8 as stated.  The matched slot's signal strength is not
    updated: after the same beacon it is whatever the slot held before (-70 in
    one table, -40 in the other).  And the number of active entries does
    increase when the matching slot was not active: a beacon whose sender
    identity is 00:00:00:00:00:00 matches slot 0 of a zeroed table and
    activates it. *)
Lemma beacon_leaves_signal_strength :
  (matches (Scenario.beacon_from (Scenario.id_of x01) x3f 200) <$>
     Scenario.table_far !! 0) = Some true ∧
  (rssi <$> Scenario.table_far !! 0) = Some (-70)%Z ∧
  (rssi <$> processBeacon (Scenario.beacon_from (Scenario.id_of x01) x3f 200)
              Scenario.table_far !! 0) = Some (-70)%Z ∧
  (rssi <$> processBeacon (Scenario.beacon_from (Scenario.id_of x01) x3f 200)
              Scenario.table_near !! 0) = Some (-40)%Z ∧
  (matches (Scenario.beacon_from (replicate NODE_ID_LENGTH x00) x3f 200) <$>
     Scenario.blank_table !! 0) = Some true ∧
  active_count Scenario.blank_table = 0 ∧
  active_count (processBeacon
                  (Scenario.beacon_from (replicate NODE_ID_LENGTH x00) x3f 200)
                  Scenario.blank_table) = 1.
Proof. vm_compute. repeat split. Qed.

(** C9. A delivered frame whose length differs from [sizeof(BeaconPacket)]
    is discarded: [processBeacon] is not invoked and the peer table is
    unchanged (the callback is a total function, so nothing else can happen);
    a frame of exactly that length, and only such a frame, is decoded and
    processed. *)
Theorem frame_size_guard (mac_addr data : list byte) (len : Z) peers :
  (len ≠ Z.of_nat sizeof_BeaconPacket →
   recv_cb mac_addr data len peers = ([], peers)) ∧
  (len = Z.of_nat sizeof_BeaconPacket →
   recv_cb mac_addr data len peers
   = ([beacon_of_frame data], processBeacon (beacon_of_frame data) peers)) ∧
  (fst (recv_cb mac_addr data len peers) ≠ [] → len = Z.of_nat sizeof_BeaconPacket).
Proof.
  unfold recv_cb. case_bool_decide as Hlen; simpl.
  - split; [done|]. split; done.
  - split; [done|]. split; [done|]. intros Hcalls. by destruct Hcalls.
Qed.

(** Witness for C9: a 10-byte frame is dropped, a 140-byte frame is
    processed. *)
Lemma frame_size_guard_witness :
  recv_cb (Scenario.id_of x01) Scenario.frame_short 10 Scenario.blank_table
  = ([], Scenario.blank_table) ∧
  fst (recv_cb (Scenario.id_of x01) Scenario.frame_ok 140 Scenario.blank_table)
  = [Scenario.beacon_from (Scenario.id_of x01) x3f 200].
Proof.
  split.
  - apply (frame_size_guard (Scenario.id_of x01) Scenario.frame_short 10
             Scenario.blank_table). vm_compute. discriminate.
  - destruct (frame_size_guard (Scenario.id_of x01) Scenario.frame_ok 140
                Scenario.blank_table) as (_ & Hok & _).
    rewrite Hok by reflexivity. reflexivity.
Defined.

End PeerDirectory.

(** ** Storage manager *)
Section StorageManager.

Import FileManager.

Implicit Types (fs : Files) (io : IoOutcome) (dev : Device) (request : FileRequest).



(** What a write that reports success leaves in the file: the bytes that
    landed. *)
Lemma handleWrite_success dev (f : string) (b : list byte) (k : N) fs :
  success (handleWrite dev (requestWrite f b (List.length b) k) fs).1 = true →
  (handleWrite dev (requestWrite f b (List.length b) k) fs).2
  = <[c_str f := take (lands dev) b]> fs.
Proof.
  unfold handleWrite, requestWrite; simpl.
  rewrite firstn_all. destruct (opens (port dev)); simpl; [|done].
  intros Hok%bool_decide_eq_true. rewrite Hok.
  by rewrite <- take_take, firstn_all.
Qed.

(** The round trip on a device that stores what it accepted: when WRITE(f, b)
    reports success and all of [b] landed, the READ that follows returns [b]
    whenever it reports success, which it does unless the device fails that
    read. *)
Lemma round_trip_when_landed dev (ioR : IoOutcome) (f : string) (b : list byte)
    (kW kR : N) fs :
  success (handleWrite dev (requestWrite f b (List.length b) kW) fs).1 = true →
  List.length b ≤ lands dev →
  (success (handleRead ioR (requestRead f kR)
              (handleWrite dev (requestWrite f b (List.length b) kW) fs).2) = true →
   rdata (handleRead ioR (requestRead f kR)
            (handleWrite dev (requestWrite f b (List.length b) kW) fs).2) = Some b) ∧
  (opens ioR = true → List.length b ≤ moves ioR →
   handleRead ioR (requestRead f kR)
     (handleWrite dev (requestWrite f b (List.length b) kW) fs).2
   = {| success := true; message := "Success"; rdata := Some b;
        rlength := List.length b; rrequestId := kR |}).
Proof.
  intros Hw Hlanded. rewrite (handleWrite_success _ _ _ _ _ Hw).
  rewrite take_ge by done.
  unfold handleRead, requestRead; simpl. rewrite lookup_insert_eq.
  split.
  - destruct (opens ioR); simpl; [|done].
    intros Hr%bool_decide_eq_true. by rewrite Hr, firstn_all.
  - intros -> Hfits. rewrite Nat.min_r by done.
    rewrite bool_decide_eq_true_2 by done. by rewrite firstn_all.
Qed.

(** A write that reports success although not all of [b] landed is read back
    short. *)
Lemma success_is_not_persistence dev (f : string) (b : list byte) (kW kR : N) fs :
  success (handleWrite dev (requestWrite f b (List.length b) kW) fs).1 = true →
  lands dev < List.length b →
  handleRead (no_fault (List.length b)) (requestRead f kR)
    (handleWrite dev (requestWrite f b (List.length b) kW) fs).2
  = {| success := true; message := "Success"; rdata := Some (take (lands dev) b);
       rlength := lands dev; rrequestId := kR |}.
Proof.
  intros Hw Hlost. rewrite (handleWrite_success _ _ _ _ _ Hw).
  unfold handleRead, requestRead, no_fault; simpl. rewrite lookup_insert_eq.
  rewrite length_take. rewrite (Nat.min_l (lands dev)) by lia.
  rewrite Nat.min_r by lia. rewrite bool_decide_eq_true_2 by done.
  rewrite take_take. by rewrite Nat.min_id.
Qed.

(** C6, at a failing input.  WRITE("/spiffs/log", 01 02 03) on a device that
    takes the three bytes into the stdio buffer and fails to flush them at
    [fclose]: the handler, which looks at the count of [fwrite] only, reports
    success with length 3, the file is left empty, and the READ that follows
    succeeds with no bytes instead of the three written. *)
Lemma write_success_without_flush :
  (handleWrite {| port := no_fault 16; lands := 0 |}
     (requestWrite "/spiffs/log" StorageScenario.blob
        (List.length StorageScenario.blob) 1) StorageScenario.disk).1
  = {| success := true; message := "Success"; rdata := None; rlength := 3;
       rrequestId := 1 |} ∧
  (handleWrite {| port := no_fault 16; lands := 0 |}
     (requestWrite "/spiffs/log" StorageScenario.blob
        (List.length StorageScenario.blob) 1) StorageScenario.disk).2
    !! "/spiffs/log" = Some [] ∧
  handleRead (no_fault 16) (requestRead "/spiffs/log" 2)
    (handleWrite {| port := no_fault 16; lands := 0 |}
       (requestWrite "/spiffs/log" StorageScenario.blob
          (List.length StorageScenario.blob) 1) StorageScenario.disk).2
  = {| success := true; message := "Success"; rdata := Some []; rlength := 0;
       rrequestId := 2 |}.
Proof. vm_compute. repeat split. Qed.



End StorageManager.

(** ** Model runtime *)

(** Case analysis along the branches of a handler. *)
Ltac handler_cases := repeat case_match; simpl; try done.

Section ModelLifecycle.

Import ModelRuntime.

Implicit Types (E : Engine) (request : ModelRequest) (models : Models)
  (context : ModelContext).



Lemma handleInference_absent E request models :
  models !! modelId request = None →
  handleInference E request models
  = {| reply := failed "Model not loaded" request UNLOADED;
       table := models; effects := [] |}.
Proof. intros Hnone. unfold handleInference. by rewrite Hnone. Qed.

(** With a stored context the handler goes straight to the copy: the size of
    the tensor plays no part in what it does, and its message is one of two. *)
Lemma handleInference_present E request models context :
  models !! modelId request = Some context →
  effects (handleInference E request models)
  = [InputCopy (length (input_tensor context)) (inputLength request);
     Invocation (copy_input request context)] ∧
  (message (reply (handleInference E request models)) = "Inference failed" ∨
   message (reply (handleInference E request models)) = "Inference successful").
Proof.
  intros Hsome. unfold handleInference. rewrite Hsome.
  destruct (Invoke E (model context) (copy_input request context)); simpl; auto.
Qed.

(** A handler changes the table at the request's model id only. *)
Lemma handleModelLoad_other E request models (id : string) :
  id ≠ modelId request →
  table (handleModelLoad E request models) !! id = models !! id.
Proof.
  intros Hne. unfold handleModelLoad.
  handler_cases. by rewrite lookup_insert_ne.
Qed.

Lemma handleInference_other E request models (id : string) :
  id ≠ modelId request →
  table (handleInference E request models) !! id = models !! id.
Proof.
  intros Hne. unfold handleInference.
  handler_cases; by rewrite lookup_insert_ne.
Qed.

Lemma handleModelLoad_failed E request models :
  success (reply (handleModelLoad E request models)) = false →
  table (handleModelLoad E request models) = models ∧
  models !! modelId request = None ∧
  (message (reply (handleModelLoad E request models)) = "Failed to load model file" ∨
   message (reply (handleModelLoad E request models)) = "Failed to allocate tensors").
Proof.
  unfold handleModelLoad. handler_cases; auto.
Qed.

Lemma handleModelLoad_stored E request models :
  success (reply (handleModelLoad E request models)) = true →
  is_Some (table (handleModelLoad E request models) !! modelId request).
Proof.
  unfold handleModelLoad. handler_cases; intros _.
  by rewrite lookup_insert_eq.
Qed.

Lemma handleModelLoad_settled E request models :
  settled models → settled (table (handleModelLoad E request models)).
Proof.
  intros Hs. unfold handleModelLoad. handler_cases.
  apply map_Forall_insert_2; [by left|done].
Qed.

Lemma handleInference_settled E request models :
  settled models → settled (table (handleInference E request models)).
Proof.
  intros Hs. unfold handleInference. handler_cases.
  - apply map_Forall_insert_2; [by left|done].
  - apply map_Forall_insert_2; [by right|done].
Qed.

(** With the body [loadModelFromStorage] has in the header, which finds no
    model, a LOAD of an id that is not in the table can only fail. *)
Lemma placeholder_storage_never_loads E request models :
  loadModelFromStorage E = loadModelFromStorage_placeholder →
  models !! modelId request = None →
  handleModelLoad E request models
  = {| reply := failed "Failed to load model file" request ERROR;
       table := models; effects := [StorageLookup (modelId request)] |}.
Proof.
  intros Hstub Hnone. unfold handleModelLoad. by rewrite Hnone, Hstub.
Qed.

(** C1, at a failing input.  RUN("gesture") with eight input bytes on a model
    whose input tensor holds four: the handler copies all eight (four of them
    past the end of the tensor), invokes the engine and reports success.  No
    size check precedes the copy and no "input size mismatch" is reported. *)
Lemma handleInference_copies_unchecked :
  (length <$> (input_tensor <$> ModelScenario.gesture_loaded !! "gesture")) = Some 4 ∧
  effects (handleInference ModelScenario.toy
             (requestInference "gesture" ModelScenario.eight_bytes 8 2)
             ModelScenario.gesture_loaded)
  = [InputCopy 4 8; Invocation [x01; x02; x03; x04]] ∧
  past_the_end <$> effects (handleInference ModelScenario.toy
                              (requestInference "gesture" ModelScenario.eight_bytes 8 2)
                              ModelScenario.gesture_loaded)
  = [4; 0] ∧
  reply (handleInference ModelScenario.toy
           (requestInference "gesture" ModelScenario.eight_bytes 8 2)
           ModelScenario.gesture_loaded)
  = {| success := true; message := "Inference successful";
       outputData := Some [x01; x02]; outputLength := 2; rrequestId := 2;
       rstate := READY |}.
Proof. vm_compute. repeat split. Qed.

(** C10. A LOAD that fails leaves the model table as it was: with no context
    stored for the id before, none is stored after (no context in any state,
    [ERROR] included), the failure is one of the two the handler raises, and a
    following LOAD of the id starts over with the storage lookup. *)
Theorem load_failure_leaves_table E request models :
  models !! modelId request = None →
  success (reply (handleModelLoad E request models)) = false →
  table (handleModelLoad E request models) = models ∧
  table (handleModelLoad E request models) !! modelId request = None ∧
  (message (reply (handleModelLoad E request models)) = "Failed to load model file" ∨
   message (reply (handleModelLoad E request models)) = "Failed to allocate tensors") ∧
  (∀ k, head (effects (handleModelLoad E (requestModelLoad (modelId request) k)
                         (table (handleModelLoad E request models))))
        = Some (StorageLookup (modelId request))).
Proof.
  intros Hnone Hfail.
  destruct (handleModelLoad_failed E request models Hfail) as (Hsame & _ & Hmsg).
  rewrite Hsame. split; [done|]. split; [done|]. split; [done|].
  intros k. unfold handleModelLoad, requestModelLoad; simpl. rewrite Hnone.
  by repeat case_match.
Qed.

(** Witness for C10: a model that storage does not hold, and one whose
    tensors cannot be allocated. *)
Lemma load_failure_leaves_table_witness :
  table (handleModelLoad ModelScenario.toy (requestModelLoad "absent" 5)
           ModelScenario.gesture_loaded)
  = ModelScenario.gesture_loaded ∧
  table (handleModelLoad ModelScenario.cramped (requestModelLoad "gesture" 6) ∅) = ∅.
Proof.
  split.
  - apply (load_failure_leaves_table ModelScenario.toy (requestModelLoad "absent" 5)
             ModelScenario.gesture_loaded); vm_compute; reflexivity.
  - apply (load_failure_leaves_table ModelScenario.cramped
             (requestModelLoad "gesture" 6) ∅); vm_compute; reflexivity.
Defined.

(** C5. LOAD is idempotent: when LOAD(id) succeeds, a second LOAD(id) right
    after it succeeds too, at once (found in the table: no storage lookup, no
    allocation) and without touching the table, which holds one context for
    id; that context is [READY] or [RUNNING] whenever the table the first
    LOAD started from held only such contexts. *)
Theorem load_idempotent E (id : string) (k1 k2 : N) models :
  success (reply (handleModelLoad E (requestModelLoad id k1) models)) = true →
  handleModelLoad E (requestModelLoad id k2)
    (table (handleModelLoad E (requestModelLoad id k1) models))
  = {| reply := {| success := true; message := "Model already loaded";
                   outputData := None; outputLength := 0; rrequestId := k2;
                   rstate := READY |};
       table := table (handleModelLoad E (requestModelLoad id k1) models);
       effects := [] |} ∧
  (∃ context,
     table (handleModelLoad E (requestModelLoad id k1) models) !! id = Some context ∧
     (settled models → state context = READY ∨ state context = RUNNING)) ∧
  (models !! id = None →
   dom (table (handleModelLoad E (requestModelLoad id k1) models)) = {[id]} ∪ dom models).
Proof.
  intros Hok.
  destruct (handleModelLoad_stored E _ models Hok) as [context Hstored].
  simpl in Hstored. split; [|split].
  - unfold handleModelLoad at 1. simpl. by rewrite Hstored.
  - exists context. split; [done|]. intros Hs.
    by apply (handleModelLoad_settled E (requestModelLoad id k1) models Hs id).
  - intros Hnone. revert Hok. unfold handleModelLoad; simpl. rewrite Hnone.
    handler_cases. intros _. apply dom_insert_L.
Qed.

(** Witness for C5: LOAD("gesture") twice on an empty table. *)
Lemma load_idempotent_witness :
  success (reply (handleModelLoad ModelScenario.toy (requestModelLoad "gesture" 2)
                    (table (handleModelLoad ModelScenario.toy
                              (requestModelLoad "gesture" 1) ∅)))) = true ∧
  dom (table (handleModelLoad ModelScenario.toy (requestModelLoad "gesture" 1) ∅))
  = {[ "gesture" ]} ∪ dom (∅ : Models).
Proof.
  destruct (load_idempotent ModelScenario.toy "gesture" 1 2 ∅) as (Hsecond & _ & Hdom).
  - vm_compute. reflexivity.
  - split; [by rewrite Hsecond|]. apply Hdom. apply lookup_empty.
Defined.

(** Counterexample to C3 as stated.  After LOAD("gesture") and a RUN whose
    invocation fails, the response reports [ERROR] but the stored context is
    [RUNNING]; a LOAD of the same id then succeeds, and so does a RUN, with no
    UNLOAD in between. *)
Lemma failed_inference_is_not_terminal :
  reply (handleInference ModelScenario.toy
           (requestInference "gesture" ModelScenario.bad_input 4 2)
           ModelScenario.gesture_loaded)
  = {| success := false; message := "Inference failed"; outputData := None;
       outputLength := 0; rrequestId := 2; rstate := ERROR |} ∧
  (state <$> table (handleInference ModelScenario.toy
                      (requestInference "gesture" ModelScenario.bad_input 4 2)
                      ModelScenario.gesture_loaded) !! "gesture") = Some RUNNING ∧
  success (reply (handleModelLoad ModelScenario.toy (requestModelLoad "gesture" 3)
                    (table (handleInference ModelScenario.toy
                              (requestInference "gesture" ModelScenario.bad_input 4 2)
                              ModelScenario.gesture_loaded)))) = true ∧
  success (reply (handleInference ModelScenario.toy
                    (requestInference "gesture" ModelScenario.good_input 4 4)
                    (table (handleInference ModelScenario.toy
                              (requestInference "gesture" ModelScenario.bad_input 4 2)
                              ModelScenario.gesture_loaded)))) = true.
Proof. vm_compute. repeat split. Qed.

(** C3 (amended). When the engine invocation of a RUN(id, input) whose input
    fits the input tensor returns a non-success result, the request fails with
    "Inference failed" and its response reports the [ERROR] state; the context
    of id stays in the model table, with its model and the size of its input
    tensor, and the other entries are untouched.  No handler consults a stored
    state afterwards: a later LOAD(id) succeeds at once as already loaded, and
    a later RUN(id) whose input fits is not rejected as not loaded but given
    to the engine again, succeeding exactly when that invocation succeeds. *)
Theorem failed_inference_keeps_context E request models context :
  models !! modelId request = Some context →
  fits request context →
  Invoke E (model context) (copy_input request context) = None →
  reply (handleInference E request models)
  = {| success := false; message := "Inference failed"; outputData := None;
       outputLength := 0; rrequestId := requestId request; rstate := ERROR |} ∧
  (∀ id, id ≠ modelId request →
         table (handleInference E request models) !! id = models !! id) ∧
  (∀ k, handleModelLoad E (requestModelLoad (modelId request) k)
          (table (handleInference E request models))
        = {| reply := {| success := true; message := "Model already loaded";
                         outputData := None; outputLength := 0; rrequestId := k;
                         rstate := READY |};
             table := table (handleInference E request models);
             effects := [] |}) ∧
  (∃ kept,
     table (handleInference E request models) !! modelId request = Some kept ∧
     model kept = model context ∧
     length (input_tensor kept) = length (input_tensor context) ∧
     ∀ later, modelId later = modelId request → fits later kept →
       message (reply (handleInference E later
                         (table (handleInference E request models))))
       ≠ "Model not loaded" ∧
       (success (reply (handleInference E later
                          (table (handleInference E request models)))) = true
        ↔ is_Some (Invoke E (model kept) (copy_input later kept)))).
Proof.
  intros Hsome [Hfits _] Hfail.
  assert (handleInference E request models
          = {| reply := failed "Inference failed" request ERROR;
               table := <[modelId request :=
                            {| model := model context;
                               input_tensor := copy_input request context;
                               tensorArenaSize := tensorArenaSize context;
                               state := RUNNING |}]> models;
               effects := [InputCopy (length (input_tensor context))
                             (inputLength request);
                           Invocation (copy_input request context)] |}) as ->.
  { unfold handleInference. by rewrite Hsome, Hfail. }
  simpl. split; [done|]. split; [|split].
  - intros id Hne. by rewrite lookup_insert_ne.
  - intros k. unfold handleModelLoad, requestModelLoad. simpl.
    by rewrite lookup_insert_eq.
  - eexists. split; [apply lookup_insert_eq|]. split; [done|]. split.
    { simpl. unfold copy_input, memcpy. cbn zeta.
      rewrite length_take, length_app, length_drop. lia. }
    intros later Hid _. unfold handleInference. rewrite Hid, lookup_insert_eq. simpl.
    destruct (Invoke E (model context) (copy_input later _)) as [output|]; simpl.
    + split; [done|]. split; [by eauto|done].
    + split; [done|]. split; [done|]. by intros [? ?].
Qed.

(** Witness for C3 (amended): the failing RUN of the scenario, then LOAD. *)
Lemma failed_inference_keeps_context_witness :
  message (reply (handleInference ModelScenario.toy
                    (requestInference "gesture" ModelScenario.bad_input 4 2)
                    ModelScenario.gesture_loaded)) = "Inference failed" ∧
  success (reply (handleModelLoad ModelScenario.toy (requestModelLoad "gesture" 3)
                    (table (handleInference ModelScenario.toy
                              (requestInference "gesture" ModelScenario.bad_input 4 2)
                              ModelScenario.gesture_loaded)))) = true.
Proof.
  destruct (failed_inference_keeps_context ModelScenario.toy
              (requestInference "gesture" ModelScenario.bad_input 4 2)
              ModelScenario.gesture_loaded
              {| model := [x54; x46; x4c; x33]; input_tensor := replicate 4 x00;
                 tensorArenaSize := arena_bytes; state := READY |})
    as (Hreply & _ & Hload & _).
  - vm_compute. reflexivity.
  - split; vm_compute; lia.
  - vm_compute. reflexivity.
  - rewrite Hreply. split; [reflexivity|].
    change (modelId (requestInference "gesture" ModelScenario.bad_input 4 2))
      with "gesture" in Hload.
    by rewrite Hload.
Defined.

End ModelLifecycle.

(** ** The model worker *)
Section ModelWorker.

Import ModelRuntime.

Implicit Types (E : Engine) (request : ModelRequest) (models : Models)
  (st : TaskState).



(** Every context the worker stores is [READY] or [RUNNING]. *)
Lemma modelTask_settled E (reqs : list ModelRequest) st :
  settled (loaded st) → settled (loaded (modelTask E reqs st).2).
Proof.
  revert st. induction reqs as [|request reqs IH]; intros st Hs; simpl; [done|].
  specialize (IH (modelTask_step E request st)).
  destruct (modelTask E reqs (modelTask_step E request st)) as [sent final].
  apply IH. unfold modelTask_step. destruct (operation request); simpl.
  - by apply handleModelLoad_settled.
  - by apply map_Forall_delete.
  - by apply handleInference_settled.
  - done.
Qed.

(** An id stays out of the table through an iteration that is not a
    successful LOAD of it. *)
Lemma modelTask_step_absent E request st (id : string) :
  loaded st !! id = None →
  (operation request = LOAD → modelId request = id →
   success (response (modelTask_step E request st)) = false) →
  loaded (modelTask_step E request st) !! id = None.
Proof.
  intros Hnone Hload. unfold modelTask_step in *.
  destruct (operation request) eqn:Hop; simpl in *.
  - destruct (decide (modelId request = id)) as [Heq|Hne].
    + by destruct (handleModelLoad_failed E request (loaded st) (Hload eq_refl Heq))
        as (-> & _ & _).
    + by rewrite handleModelLoad_other.
  - destruct (decide (modelId request = id)) as [->|Hne].
    + apply lookup_delete_eq.
    + by rewrite lookup_delete_ne.
  - destruct (decide (modelId request = id)) as [Heq|Hne].
    + rewrite handleInference_absent by (by rewrite Heq). done.
    + by rewrite handleInference_other.
  - done.
Qed.

Lemma modelTask_absent E (reqs : list ModelRequest) st (id : string) :
  loaded st !! id = None →
  (∀ sent, sent ∈ (modelTask E reqs st).1 →
           operation sent.1 = LOAD → modelId sent.1 = id → success sent.2 = false) →
  loaded (modelTask E reqs st).2 !! id = None.
Proof.
  revert st. induction reqs as [|request reqs IH]; intros st Hnone Hloads; simpl in *.
  - done.
  - specialize (IH (modelTask_step E request st)).
    destruct (modelTask E reqs (modelTask_step E request st)) as [sent final].
    simpl in *. apply IH.
    + apply modelTask_step_absent; [done|]. intros Hop Hid.
      apply (Hloads (request, response (modelTask_step E request st)));
        [apply list_elem_of_here|done|done].
    + intros pair Hin. apply Hloads. by apply list_elem_of_further.
Qed.

(** Counterexample to C4 as stated.  After LOAD("gesture") and a RUN whose
    invocation fails, the only context stored for "gesture" is [RUNNING], so
    no [READY] context exists for it; yet the next RUN("gesture") does not
    fail with "Model not loaded": it runs, and succeeds. *)
Lemma run_without_ready_context :
  (state <$> table (handleInference ModelScenario.toy
                      (requestInference "gesture" ModelScenario.bad_input 4 2)
                      ModelScenario.gesture_loaded) !! "gesture") = Some RUNNING ∧
  message (reply (handleInference ModelScenario.toy
                    (requestInference "gesture" ModelScenario.good_input 4 3)
                    (table (handleInference ModelScenario.toy
                              (requestInference "gesture" ModelScenario.bad_input 4 2)
                              ModelScenario.gesture_loaded))))
  = "Inference successful".
Proof. vm_compute. split; reflexivity. Qed.

(** C4 (amended). A RUN(id, input) request fails with "Model not loaded"
    exactly when no context is stored for id in the model table, whatever
    state a stored context records: with none stored it fails with that
    message and changes nothing, with one stored it does not fail with that
    message.  In particular a RUN(id) that the worker, started on an empty
    table, serves before any LOAD(id) has succeeded fails with that message. *)
Theorem run_not_loaded_iff_absent E request models :
  (message (reply (handleInference E request models)) = "Model not loaded"
   ↔ models !! modelId request = None) ∧
  (models !! modelId request = None →
   handleInference E request models
   = {| reply := {| success := false; message := "Model not loaded";
                    outputData := None; outputLength := 0;
                    rrequestId := requestId request; rstate := UNLOADED |};
        table := models; effects := [] |}) ∧
  (∀ (earlier : list ModelRequest) (r0 : ModelResponse),
     operation request = RUN →
     (∀ sent, sent ∈ (modelTask E earlier {| loaded := ∅; response := r0 |}).1 →
              operation sent.1 = LOAD → modelId sent.1 = modelId request →
              success sent.2 = false) →
     response (modelTask_step E request
                 (modelTask E earlier {| loaded := ∅; response := r0 |}).2)
     = {| success := false; message := "Model not loaded"; outputData := None;
          outputLength := 0; rrequestId := requestId request;
          rstate := UNLOADED |}).
Proof.
  split; [|split].
  - split.
    + destruct (models !! modelId request) as [context|] eqn:Hlook; [|done].
      destruct (handleInference_present E request models context Hlook)
        as [_ [Hmsg|Hmsg]]; rewrite Hmsg; discriminate.
    + intros Hnone. by rewrite handleInference_absent.
  - apply handleInference_absent.
  - intros earlier r0 Hop Hloads. unfold modelTask_step. rewrite Hop. simpl.
    rewrite handleInference_absent; [done|].
    apply modelTask_absent; [apply lookup_empty|done].
Qed.

(** Witness for C4 (amended): RUN("gesture") served after a LOAD of another,
    unknown model failed and before any LOAD("gesture"). *)
Lemma run_not_loaded_iff_absent_witness :
  message (response (modelTask_step ModelScenario.toy
                       (requestInference "gesture" ModelScenario.good_input 4 2)
                       (modelTask ModelScenario.toy [requestModelLoad "absent" 1]
                          {| loaded := ∅;
                             response := ModelScenario.initial_response |}).2))
  = "Model not loaded".
Proof.
  destruct (run_not_loaded_iff_absent ModelScenario.toy
              (requestInference "gesture" ModelScenario.good_input 4 2) ∅)
    as (_ & _ & Hbefore).
  rewrite (Hbefore [requestModelLoad "absent" 1] ModelScenario.initial_response).
  - reflexivity.
  - reflexivity.
  - intros sent Hin _ Hid. vm_compute in Hin.
    apply list_elem_of_singleton in Hin. subst sent. discriminate Hid.
Defined.

End ModelWorker.

(** ** Request and response correlation in the two workers *)
Section Correlation.








End Correlation.

(** ** The beacon send path *)
Section BeaconFrames.

Import Firmware Beaconing.

Local Open Scope list_scope.

Lemma to_N_byte_of (n : N) : Byte.to_N (byte_of n) = (n mod 256)%N.
Proof.
  unfold byte_of. destruct (Byte.of_N (n mod 256)) as [b|] eqn:Hb; simpl.
  - by apply Byte.to_of_N.
  - apply Byte.of_N_None_iff in Hb.
    pose proof (N.mod_upper_bound n 256). lia.
Qed.

Lemma le_value_le_bytes32 (n : N) :
  (n < 2 ^ 32)%N → le_value (le_bytes32 n) = n.
Proof.
  intros Hn. unfold le_bytes32, le_value. rewrite !to_N_byte_of.
  assert (n / 16777216 < 256)%N as Htop.
  { apply N.Div0.div_lt_upper_bound. change (256 * 16777216)%N with (2 ^ 32)%N. lia. }
  rewrite (N.mod_small (n / 16777216)) by done.
  pose proof (N.div_mod n 256). pose proof (N.div_mod (n / 256) 256).
  pose proof (N.div_mod (n / 65536) 256).
  assert (n / 65536 = n / 256 / 256)%N as H65 by (by rewrite N.Div0.div_div).
  assert (n / 16777216 = n / 65536 / 256)%N as H16 by (by rewrite N.Div0.div_div).
  lia.
Qed.

Lemma uint32_of_bound (t : Z) : (uint32_of t < 2 ^ 32)%N.
Proof.
  unfold uint32_of. pose proof (Z.mod_pos_bound t (2 ^ 32)). lia.
Qed.

Lemma store_at_within (object : list byte) (off : nat) (src : list byte) (n : nat) :
  n ≤ length src →
  store_at object off src n = take off object ++ take n src ++ drop (off + n) object.
Proof.
  intros Hsrc. unfold store_at, memcpy. cbn zeta.
  rewrite length_take, Nat.min_l by done. by rewrite drop_drop.
Qed.

(** The bytes [sendBeacon] broadcasts: identity, the two padding bytes left
    from the stack, capability vector, timestamp. *)
Lemma sendBeacon_frame (node_id stack output : list byte) (now : Z) :
  length node_id = NODE_ID_LENGTH →
  length stack = sizeof_BeaconPacket →
  sizeof_capabilities ≤ length output →
  sendBeacon node_id stack (Some output) now
  = Some (node_id ++ take 2 (drop NODE_ID_LENGTH stack)
            ++ take sizeof_capabilities output ++ le_bytes32 (uint32_of now)).
Proof.
  change NODE_ID_LENGTH with 6. change sizeof_BeaconPacket with 140.
  change sizeof_capabilities with 128.
  intros Hid Hstack Hout. unfold sendBeacon.
  change offsetof_sender_id with 0. change offsetof_capabilities with 8.
  change offsetof_timestamp with 136. change NODE_ID_LENGTH with 6.
  change sizeof_BeaconPacket with 140. change sizeof_capabilities with 128.
  rewrite !store_at_within by (done || lia).
  f_equal. rewrite take_0, app_nil_l, (take_ge node_id) by lia.
  change (0 + 6) with 6. change (8 + 128) with 136. change (136 + 4) with 140.
  set (rest := drop 6 stack).
  assert (length rest = 134) as Hrest by (unfold rest; rewrite length_drop; lia).
  set (caps := take 128 output).
  assert (length caps = 128) as Hcaps by (unfold caps; rewrite length_take; lia).
  set (ts := le_bytes32 (uint32_of now)).
  change (take 4 ts) with ts.
  assert (length ts = 4) as Hts by done.
  clearbody rest caps ts.
  assert (take 8 (node_id ++ rest) = node_id ++ take 2 rest) as ->.
  { rewrite take_app_ge by lia. by rewrite Hid. }
  assert (length (node_id ++ take 2 rest) = 8) as Hhead.
  { rewrite length_app, length_take, Hid, Hrest. done. }
  set (image := (node_id ++ take 2 rest) ++ caps ++ drop 136 (node_id ++ rest)).
  assert (take 136 image = (node_id ++ take 2 rest) ++ caps) as ->.
  { unfold image. rewrite app_assoc. apply take_app_length'.
    rewrite length_app, Hhead, Hcaps. done. }
  assert (drop 140 image = []) as ->.
  { apply drop_ge. unfold image.
    rewrite !length_app, length_drop, length_app, length_take.
    rewrite Hid, Hrest, Hcaps. simpl. lia. }
  rewrite app_nil_r, take_ge.
  - by rewrite <- !app_assoc.
  - rewrite !length_app, length_take, Hid, Hrest, Hcaps, Hts. simpl. lia.
Qed.

(** Decoding a frame laid out as the struct is. *)
Lemma frame_decodes (node_id pad caps ts : list byte) :
  length node_id = NODE_ID_LENGTH → length pad = 2 →
  length caps = sizeof_capabilities → length ts = 4 →
  length (node_id ++ pad ++ caps ++ ts) = sizeof_BeaconPacket ∧
  beacon_of_frame (node_id ++ pad ++ caps ++ ts)
  = {| sender_id := node_id; beacon_capabilities := caps; timestamp := le_value ts |}.
Proof.
  intros Hid Hpad Hcaps Hts. split.
  { rewrite !length_app, Hid, Hpad, Hcaps, Hts. done. }
  unfold beacon_of_frame. f_equal.
  - change offsetof_sender_id with 0. rewrite drop_0. by apply take_app_length'.
  - rewrite (app_assoc node_id pad).
    rewrite drop_app_length' by (rewrite length_app, Hid, Hpad; done).
    by apply take_app_length'.
  - rewrite (app_assoc node_id pad), (app_assoc (node_id ++ pad) caps).
    rewrite drop_app_length' by (rewrite !length_app, Hid, Hpad, Hcaps; done).
    by rewrite take_ge by (rewrite Hts; done).
Qed.

Lemma sendBeacon_decodes (node_id stack output : list byte) (now : Z) :
  length node_id = NODE_ID_LENGTH →
  length stack = sizeof_BeaconPacket →
  sizeof_capabilities ≤ length output →
  ∃ frame,
    sendBeacon node_id stack (Some output) now = Some frame ∧
    length frame = sizeof_BeaconPacket ∧
    beacon_of_frame frame
    = {| sender_id := node_id;
         beacon_capabilities := take sizeof_capabilities output;
         timestamp := uint32_of now |}.
Proof.
  intros Hid Hstack Hout.
  rewrite (sendBeacon_frame node_id stack output now Hid Hstack Hout).
  eexists. split; [done|].
  destruct (frame_decodes node_id (take 2 (drop NODE_ID_LENGTH stack))
              (take sizeof_capabilities output) (le_bytes32 (uint32_of now)))
    as [Hlen Hdecoded]; [done| | |done|].
  - rewrite length_take, length_drop, Hstack. done.
  - rewrite length_take. lia.
  - split; [done|]. rewrite Hdecoded.
    by rewrite le_value_le_bytes32 by apply uint32_of_bound.
Qed.

Lemma uint32_of_wraps (now : Z) : uint32_of (now + 2 ^ 32) = uint32_of now.
Proof.
  unfold uint32_of. f_equal.
  rewrite <- (Z.mul_1_l (2 ^ 32)) at 1. by rewrite Z.mod_add.
Qed.

(** X1. Beacon round trip: what [sendBeacon] broadcasts is a frame of
    [sizeof(BeaconPacket)] bytes that the receive callback of a peer accepts
    and decodes to the sender's identity, the first 128 bytes of the output
    tensor and the clock reduced modulo 2^32, whatever the stack held in the
    padding; so a frame sent 2^32 microseconds later is the same frame. *)
Theorem beacon_round_trip (node_id stack output mac_addr : list byte) (now : Z)
    (peers : list SwarmPeer) :
  length node_id = NODE_ID_LENGTH →
  length stack = sizeof_BeaconPacket →
  sizeof_capabilities ≤ length output →
  ∃ frame,
    sendBeacon node_id stack (Some output) now = Some frame ∧
    length frame = sizeof_BeaconPacket ∧
    beacon_of_frame frame
    = {| sender_id := node_id;
         beacon_capabilities := take sizeof_capabilities output;
         timestamp := Z.to_N (now mod 2 ^ 32) |} ∧
    recv_cb mac_addr frame (Z.of_nat (length frame)) peers
    = ([beacon_of_frame frame], processBeacon (beacon_of_frame frame) peers) ∧
    sendBeacon node_id stack (Some output) (now + 2 ^ 32) = Some frame.
Proof.
  intros Hid Hstack Hout.
  destruct (sendBeacon_decodes node_id stack output now Hid Hstack Hout)
    as (frame & Hsent & Hlen & Hdecoded).
  exists frame. split; [done|]. split; [done|]. split; [done|]. split.
  - unfold recv_cb. rewrite Hlen. by rewrite bool_decide_eq_true_2.
  - rewrite <- Hsent. unfold sendBeacon. by rewrite uint32_of_wraps.
Qed.

(** Witness for X1. *)
Lemma beacon_round_trip_witness :
  ∃ frame,
    sendBeacon BeaconScenario.node BeaconScenario.dirty_stack
      (Some BeaconScenario.output_tensor) 1000 = Some frame ∧
    sender_id (beacon_of_frame frame) = BeaconScenario.node ∧
    timestamp (beacon_of_frame frame) = 1000%N.
Proof.
  destruct (beacon_round_trip BeaconScenario.node BeaconScenario.dirty_stack
              BeaconScenario.output_tensor [] 1000 Scenario.blank_table)
    as (frame & Hsent & _ & Hdecoded & _).
  - reflexivity.
  - reflexivity.
  - vm_compute. lia.
  - exists frame. split; [exact Hsent|]. rewrite Hdecoded. split; reflexivity.
Defined.

End BeaconFrames.

(** ** More on the peer directory *)
Section PeerUpsert.

Import Firmware Beaconing.

Local Open Scope list_scope.

Implicit Types (peers : list SwarmPeer) (beacon : BeaconPacket) (p q : SwarmPeer).

(** The three ways [processBeacon] can go. *)
Lemma processBeacon_cases beacon peers :
  (∃ j p, peers !! j = Some p ∧ matches beacon p = true ∧
          (∀ i q, i < j → peers !! i = Some q → matches beacon q = false) ∧
          processBeacon beacon peers = alter (refresh beacon) j peers) ∨
  (∃ j p, peers !! j = Some p ∧ is_active p = false ∧
          (∀ i q, i < MAX_PEERS → peers !! i = Some q → matches beacon q = false) ∧
          (∀ i q, i < j → peers !! i = Some q → is_active q = true) ∧
          processBeacon beacon peers = alter (populate beacon) j peers) ∨
  ((∀ i q, i < MAX_PEERS → peers !! i = Some q →
           matches beacon q = false ∧ is_active q = true) ∧
   processBeacon beacon peers = peers).
Proof.
  unfold processBeacon, first_slot.
  destruct (scan_from (matches beacon) peers 0 MAX_PEERS) as [j|] eqn:Hm.
  - left. apply scan_from_Some in Hm as (_ & (p & Hp & Hmp) & Hbefore).
    exists j, p. repeat split; try done.
    intros i q Hi. apply Hbefore. lia.
  - pose proof (scan_from_None_inv _ _ _ _ Hm) as Hnone.
    assert (∀ i q, i < MAX_PEERS → peers !! i = Some q → matches beacon q = false)
      as Hnomatch by (intros i q Hi; apply Hnone; lia).
    destruct (scan_from inactive peers 0 MAX_PEERS) as [j|] eqn:Hf.
    + right; left. apply scan_from_Some in Hf as (_ & (p & Hp & Hoff) & Hbefore).
      exists j, p. unfold inactive in *. repeat split; try done.
      * by destruct (is_active p).
      * intros i q Hi Hq. specialize (Hbefore i q). 
        destruct (is_active q); [done|]. discriminate Hbefore; [lia|done].
    + right; right. pose proof (scan_from_None_inv _ _ _ _ Hf) as Hfull.
      split; [|done]. intros i q Hi Hq. split; [by apply (Hnomatch i)|].
      specialize (Hfull i q). unfold inactive in Hfull.
      destruct (is_active q); [done|]. discriminate Hfull; [lia|done].
Qed.

Lemma processBeacon_active_count beacon peers :
  active_count peers ≤ active_count (processBeacon beacon peers) ≤ S (active_count peers).
Proof.
  destruct (processBeacon_cases beacon peers)
    as [(j & p & Hp & _ & _ & ->)|[(j & p & Hp & Hoff & _ & _ & ->)|[_ ->]]].
  - destruct (is_active p) eqn:Hact.
    + rewrite (active_count_alter_same _ _ _ p) by (done || by rewrite Hact). lia.
    + rewrite (active_count_alter_activate _ _ _ p) by done. lia.
  - rewrite (active_count_alter_activate _ _ _ p) by done. lia.
  - lia.
Qed.

Lemma processBeacon_keeps_active beacon peers i p :
  peers !! i = Some p → is_active p = true →
  ∃ p', processBeacon beacon peers !! i = Some p' ∧
        is_active p' = true ∧ mac_address p' = mac_address p ∧ rssi p' = rssi p.
Proof.
  intros Hp Hact.
  destruct (processBeacon_cases beacon peers)
    as [(j & q & Hq & _ & _ & ->)|[(j & q & Hq & Hoff & _ & _ & ->)|[_ ->]]].
  - destruct (decide (j = i)) as [->|Hne].
    + rewrite list_lookup_alter_eq, Hp. simpl. eauto.
    + rewrite list_lookup_alter_ne by done. eauto.
  - destruct (decide (j = i)) as [->|Hne]; [congruence|].
    rewrite list_lookup_alter_ne by done. eauto.
  - eauto.
Qed.

(** X2. Entries are never evicted, expired or reassigned: through any
    sequence of beacons a slot that is active stays active and keeps its
    identity (and its signal strength); the number of active entries never
    decreases, and each beacon adds at most one. *)
Theorem active_entries_persist (beacons : list BeaconPacket) peers :
  (∀ i p, peers !! i = Some p → is_active p = true →
     ∃ p', after_beacons beacons peers !! i = Some p' ∧
           is_active p' = true ∧ mac_address p' = mac_address p ∧
           rssi p' = rssi p) ∧
  active_count peers ≤ active_count (after_beacons beacons peers)
    ≤ active_count peers + length beacons.
Proof.
  unfold after_beacons. revert peers.
  induction beacons as [|beacon beacons IH]; intros peers; simpl.
  - split; [eauto|lia].
  - destruct (IH (processBeacon beacon peers)) as [IHkeep IHcount].
    pose proof (processBeacon_active_count beacon peers). split; [|lia].
    intros i p Hp Hact.
    destruct (processBeacon_keeps_active beacon peers i p Hp Hact)
      as (p1 & Hp1 & Hact1 & Hmac1 & Hrssi1).
    destruct (IHkeep i p1 Hp1 Hact1) as (p' & Hp' & Hact' & Hmac' & Hrssi').
    exists p'. repeat split; congruence.
Qed.

(** Witness for X2: the known peer of [table_far] after two beacons of
    others. *)
Lemma active_entries_persist_witness :
  ∃ p', after_beacons [Scenario.beacon_from (Scenario.id_of x02) x3f 200;
                       Scenario.beacon_from (Scenario.id_of x03) x3f 300]
          Scenario.table_far !! 0 = Some p' ∧
        is_active p' = true ∧
        mac_address p' = Scenario.id_of x01.
Proof.
  destruct (active_entries_persist
              [Scenario.beacon_from (Scenario.id_of x02) x3f 200;
               Scenario.beacon_from (Scenario.id_of x03) x3f 300]
              Scenario.table_far) as [Hkeep _].
  destruct (Hkeep 0 (Scenario.known_peer (Scenario.id_of x01) (-70)))
    as (p' & Hp' & Hact & Hmac & _); [reflexivity|reflexivity|].
  exists p'. by repeat split.
Defined.

Lemma matches_populate beacon beacon' p :
  length (sender_id beacon) = NODE_ID_LENGTH →
  matches beacon' (populate beacon p)
  = bool_decide (sender_id beacon = take NODE_ID_LENGTH (sender_id beacon')).
Proof.
  intros Hid. unfold matches, memcmp_eq, populate. simpl.
  by rewrite take_memcpy.
Qed.

Lemma processBeacon_populates peers beacon j p :
  length peers = MAX_PEERS →
  (∀ i q, peers !! i = Some q → matches beacon q = false) →
  peers !! j = Some p →
  is_active p = false →
  (∀ i q, i < j → peers !! i = Some q → is_active q = true) →
  processBeacon beacon peers = alter (populate beacon) j peers.
Proof.
  intros Hlen Hnew Hp Hoff Hbefore.
  assert (j < MAX_PEERS) as Hj by (apply lookup_lt_Some in Hp; lia).
  unfold processBeacon, first_slot.
  rewrite scan_from_None by (intros i q _; apply Hnew).
  rewrite (scan_from_first inactive peers 0 MAX_PEERS j p); [done|lia|done| |].
  - unfold inactive. by rewrite Hoff.
  - intros i q Hi Hq. unfold inactive. rewrite (Hbefore i q); [done|lia|done].
Qed.

(** X3. A beacon from an identity no slot holds goes to the first inactive
    slot, and only there: that slot takes the sender identity, timestamp and
    capability vector and becomes active, the number of active entries grows
    by one, and the identity is found in that slot from then on. *)
Theorem new_identity_takes_first_free_slot peers beacon j p :
  length peers = MAX_PEERS →
  length (sender_id beacon) = NODE_ID_LENGTH →
  (∀ i q, peers !! i = Some q → matches beacon q = false) →
  peers !! j = Some p →
  is_active p = false →
  (∀ i q, i < j → peers !! i = Some q → is_active q = true) →
  processBeacon beacon peers !! j =
    Some {| mac_address := memcpy (mac_address p) (sender_id beacon) NODE_ID_LENGTH;
            rssi := rssi p;
            last_seen := timestamp beacon;
            is_active := true;
            capabilities := memcpy (capabilities p) (beacon_capabilities beacon)
                              sizeof_capabilities |} ∧
  (length (mac_address p) = NODE_ID_LENGTH →
   memcpy (mac_address p) (sender_id beacon) NODE_ID_LENGTH = sender_id beacon) ∧
  (∀ i, i ≠ j → processBeacon beacon peers !! i = peers !! i) ∧
  active_count (processBeacon beacon peers) = S (active_count peers) ∧
  first_slot (matches beacon) (processBeacon beacon peers) = Some j.
Proof.
  intros Hlen Hid Hnew Hp Hoff Hbefore.
  assert (j < MAX_PEERS) as Hj by (apply lookup_lt_Some in Hp; lia).
  rewrite (processBeacon_populates peers beacon j p) by done.
  split; [by rewrite list_lookup_alter_eq, Hp|]. split.
  { intros Hmac. rewrite <- Hid. apply memcpy_whole. congruence. }
  split; [intros i Hi; by apply list_lookup_alter_ne|].
  split; [by apply (active_count_alter_activate _ _ _ p)|].
  unfold first_slot.
  apply (scan_from_first _ _ 0 MAX_PEERS j (populate beacon p)).
  - lia.
  - by rewrite list_lookup_alter_eq, Hp.
  - rewrite matches_populate by done. apply bool_decide_eq_true.
    rewrite <- Hid. by rewrite firstn_all.
  - intros i q Hi. rewrite list_lookup_alter_ne by lia. apply Hnew.
Qed.

(** Witness for X3: a first beacon on a zeroed table goes to slot 0. *)
Lemma new_identity_takes_first_free_slot_witness :
  first_slot (matches (Scenario.beacon_from (Scenario.id_of x01) x3f 200))
    (processBeacon (Scenario.beacon_from (Scenario.id_of x01) x3f 200)
       Scenario.blank_table) = Some 0 ∧
  active_count (processBeacon (Scenario.beacon_from (Scenario.id_of x01) x3f 200)
                  Scenario.blank_table) = 1.
Proof.
  destruct (new_identity_takes_first_free_slot Scenario.blank_table
              (Scenario.beacon_from (Scenario.id_of x01) x3f 200) 0
              Scenario.blank_peer) as (_ & _ & _ & Hcount & Hfound).
  - reflexivity.
  - reflexivity.
  - intros i q Hq. apply list_elem_of_lookup_2 in Hq.
    apply elem_of_replicate in Hq as [-> _]. vm_compute. reflexivity.
  - reflexivity.
  - reflexivity.
  - intros i q Hi. lia.
  - split; [exact Hfound|exact Hcount].
Defined.

(** The invariant behind the distinctness of active identities. *)
Lemma processBeacon_first_holders beacon peers :
  length peers = MAX_PEERS →
  length (sender_id beacon) = NODE_ID_LENGTH →
  first_holders peers → first_holders (processBeacon beacon peers).
Proof.
  intros Hlen Hid Hinv.
  destruct (processBeacon_cases beacon peers)
    as [(j & pj & Hpj & Hmj & Hfirst & ->)
       |[(j & pj & Hpj & Hoff & Hnomatch & _ & ->)|[_ ->]]]; [| |done].
  - (* slot [j] refreshed: its identity is unchanged *)
    intros i k p q Hik Hp Hq Hact.
    destruct (decide (k = j)) as [->|Hkj].
    + rewrite list_lookup_alter_eq, Hpj in Hq. injection Hq as <-.
      rewrite list_lookup_alter_ne in Hp by lia. simpl.
      specialize (Hfirst i p Hik Hp). unfold matches, memcmp_eq in *.
      apply bool_decide_eq_true in Hmj. apply bool_decide_eq_false in Hfirst.
      apply bool_decide_eq_false. congruence.
    + rewrite list_lookup_alter_ne in Hq by done.
      destruct (decide (i = j)) as [->|Hij].
      * rewrite list_lookup_alter_eq, Hpj in Hp. injection Hp as <-. simpl.
        by apply (Hinv j k pj q).
      * rewrite list_lookup_alter_ne in Hp by done. by apply (Hinv i k p q).
  - (* slot [j] populated: no other slot holds the sender's identity *)
    intros i k p q Hik Hp Hq Hact.
    assert (∀ n r, peers !! n = Some r → matches beacon r = false) as Hno.
    { intros n r Hr. apply (Hnomatch n r); [|done].
      apply lookup_lt_Some in Hr. lia. }
    destruct (decide (k = j)) as [->|Hkj].
    + rewrite list_lookup_alter_eq, Hpj in Hq. injection Hq as <-.
      rewrite list_lookup_alter_ne in Hp by lia.
      specialize (Hno i p Hp). unfold matches, memcmp_eq, populate in *. simpl.
      rewrite take_memcpy by done.
      apply bool_decide_eq_false in Hno. apply bool_decide_eq_false.
      rewrite <- Hid in Hno at 2. by rewrite firstn_all in Hno.
    + rewrite list_lookup_alter_ne in Hq by done.
      destruct (decide (i = j)) as [->|Hij].
      * rewrite list_lookup_alter_eq, Hpj in Hp. injection Hp as <-.
        specialize (Hno k q Hq). unfold matches, memcmp_eq, populate in *. simpl.
        rewrite take_memcpy by done.
        apply bool_decide_eq_false in Hno. apply bool_decide_eq_false.
        rewrite <- Hid in Hno at 2. rewrite firstn_all in Hno. congruence.
      * rewrite list_lookup_alter_ne in Hp by done. by apply (Hinv i k p q).
Qed.

(** X4. Starting from a table with no active slot (whatever bytes it holds),
    no two active slots ever share an identity, after any sequence of beacons
    that carry six-byte sender identities. *)
Theorem active_identities_distinct (beacons : list BeaconPacket) peers :
  length peers = MAX_PEERS →
  Forall (λ p, is_active p = false) peers →
  Forall (λ beacon, length (sender_id beacon) = NODE_ID_LENGTH) beacons →
  ∀ i k p q, i ≠ k →
    after_beacons beacons peers !! i = Some p →
    after_beacons beacons peers !! k = Some q →
    is_active p = true → is_active q = true →
    take NODE_ID_LENGTH (mac_address p) ≠ take NODE_ID_LENGTH (mac_address q).
Proof.
  intros Hlen Hoff Hids.
  assert (first_holders (after_beacons beacons peers)) as Hinv.
  { assert (first_holders peers) as Hstart.
    { intros i k p q _ _ Hq Hact. rewrite Forall_lookup in Hoff.
      rewrite (Hoff k q Hq) in Hact. discriminate. }
    clear Hoff. unfold after_beacons. revert peers Hlen Hstart.
    induction Hids as [|beacon beacons Hid _ IH]; intros peers Hlen Hstart; [done|].
    simpl. apply IH; [by rewrite length_processBeacon|].
    by apply processBeacon_first_holders. }
  intros i k p q Hne Hp Hq Hactp Hactq.
  destruct (decide (i < k)) as [Hlt|Hge].
  - specialize (Hinv i k p q Hlt Hp Hq Hactq).
    unfold memcmp_eq in Hinv. by apply bool_decide_eq_false in Hinv.
  - assert (k < i) as Hlt by lia.
    specialize (Hinv k i q p Hlt Hq Hp Hactp).
    unfold memcmp_eq in Hinv. apply bool_decide_eq_false in Hinv. congruence.
Qed.

(** Witness for X4: beacons of two identities, one of them twice, on a
    zeroed table. *)
Lemma active_identities_distinct_witness :
  (take NODE_ID_LENGTH <$>
     (mac_address <$>
        after_beacons [Scenario.beacon_from (Scenario.id_of x01) x3f 200;
                       Scenario.beacon_from (Scenario.id_of x02) x3f 300;
                       Scenario.beacon_from (Scenario.id_of x01) x3f 400]
          Scenario.blank_table !! 0))
  ≠ (take NODE_ID_LENGTH <$>
       (mac_address <$>
          after_beacons [Scenario.beacon_from (Scenario.id_of x01) x3f 200;
                         Scenario.beacon_from (Scenario.id_of x02) x3f 300;
                         Scenario.beacon_from (Scenario.id_of x01) x3f 400]
            Scenario.blank_table !! 1)).
Proof.
  pose proof (active_identities_distinct
                [Scenario.beacon_from (Scenario.id_of x01) x3f 200;
                 Scenario.beacon_from (Scenario.id_of x02) x3f 300;
                 Scenario.beacon_from (Scenario.id_of x01) x3f 400]
                Scenario.blank_table eq_refl) as Hdistinct.
  destruct (after_beacons _ Scenario.blank_table !! 0) as [p|] eqn:Hp;
    [|vm_compute in Hp; discriminate].
  destruct (after_beacons _ Scenario.blank_table !! 1) as [q|] eqn:Hq;
    [|vm_compute in Hq; discriminate].
  simpl. intros [= Heq]. revert Heq.
  apply (Hdistinct ltac:(by apply Forall_replicate)
           ltac:(by repeat constructor) 0 1 p q); [lia|done|done| |].
  - vm_compute in Hp. by injection Hp as <-.
  - vm_compute in Hq. by injection Hq as <-.
Defined.

(** Beacons that all carry one sender identity. *)
Lemma same_sender_settles (beacons : list BeaconPacket) beacon peers :
  length peers = MAX_PEERS →
  length (sender_id beacon) = NODE_ID_LENGTH →
  Forall (λ later, sender_id later = sender_id beacon) beacons →
  active_count (after_beacons beacons (processBeacon beacon peers))
  = active_count (processBeacon beacon peers).
Proof.
  intros Hlen Hid Hsame. unfold after_beacons. revert beacon peers Hlen Hid Hsame.
  induction beacons as [|next beacons IH]; intros beacon peers Hlen Hid Hsame; [done|].
  apply Forall_cons in Hsame as [Hnext Hrest]. simpl.
  rewrite IH.
  - by apply repeated_beacon_keeps_active_count.
  - by rewrite length_processBeacon.
  - congruence.
  - eapply Forall_impl; [exact Hrest|]. simpl. congruence.
Qed.

(** A frame of the right length is handled as the beacon it decodes to. *)
Lemma deliver_after_beacons (frames : list (list byte)) peers :
  Forall (λ frame, length frame = sizeof_BeaconPacket) frames →
  deliver frames peers = after_beacons (beacon_of_frame <$> frames) peers.
Proof.
  unfold deliver, after_beacons. intros Hframes. revert peers.
  induction Hframes as [|frame frames Hlen _ IH]; intros peers; [done|].
  simpl. rewrite <- IH. f_equal. unfold recv_cb.
  by rewrite Hlen, bool_decide_eq_true_2.
Qed.

Lemma run_cons (node_id : list byte) (tick : Tick) (ticks : list Tick) :
  run node_id (tick :: ticks)
  = match sendBeacon node_id (stack tick) (engine tick) (clock tick) with
    | Some frame => frame :: run node_id ticks
    | None => run node_id ticks
    end.
Proof. reflexivity. Qed.

Lemma length_run (node_id : list byte) (ticks : list Tick) :
  length (run node_id ticks) ≤ length ticks.
Proof.
  induction ticks as [|tick ticks IH]; [done|]. rewrite run_cons.
  destruct (sendBeacon _ _ _ _); simpl; lia.
Qed.

Lemma run_frames (node_id : list byte) (ticks : list Tick) :
  length node_id = NODE_ID_LENGTH →
  Forall (λ tick, length (stack tick) = sizeof_BeaconPacket ∧
                  ∀ output, engine tick = Some output →
                            sizeof_capabilities ≤ length output) ticks →
  Forall (λ frame, length frame = sizeof_BeaconPacket ∧
                   sender_id (beacon_of_frame frame) = node_id)
         (run node_id ticks).
Proof.
  intros Hid Hticks.
  induction Hticks as [|tick ticks [Hstack Hout] _ IH]; [constructor|].
  rewrite run_cons.
  destruct (engine tick) as [output|] eqn:Hengine; [|done].
  destruct (sendBeacon_decodes node_id (stack tick) output (clock tick)
              Hid Hstack (Hout output eq_refl))
    as (frame & -> & Hlen & Hdecoded).
  constructor; [|done]. split; [done|]. by rewrite Hdecoded.
Qed.

(** X5. A node that keeps beaconing takes at most one slot in a peer's
    table: after the peer has received every frame the node's loop sent over
    any number of iterations (failed inferences send nothing), the peer's
    table has its 20 slots and at most one more active entry than before. *)
Theorem beaconing_node_takes_one_slot (node_id : list byte) (ticks : list Tick) peers :
  length node_id = NODE_ID_LENGTH →
  length peers = MAX_PEERS →
  Forall (λ tick, length (stack tick) = sizeof_BeaconPacket ∧
                  ∀ output, engine tick = Some output →
                            sizeof_capabilities ≤ length output) ticks →
  length (run node_id ticks) ≤ length ticks ∧
  length (deliver (run node_id ticks) peers) = MAX_PEERS ∧
  active_count peers ≤ active_count (deliver (run node_id ticks) peers)
    ≤ S (active_count peers).
Proof.
  intros Hid Hlen Hticks.
  split; [apply length_run|].
  pose proof (run_frames node_id ticks Hid Hticks) as Hframes.
  rewrite deliver_after_beacons
    by (eapply Forall_impl; [exact Hframes|]; by intros frame [? _]).
  split; [by rewrite length_after_beacons|].
  assert (Forall (λ beacon, sender_id beacon = node_id)
            (beacon_of_frame <$> run node_id ticks)) as Hsenders.
  { apply Forall_fmap. eapply Forall_impl; [exact Hframes|]. by intros frame [_ ?]. }
  destruct (beacon_of_frame <$> run node_id ticks) as [|beacon beacons]; [simpl; lia|].
  apply Forall_cons in Hsenders as [Hfirst Hrest].
  change (after_beacons (beacon :: beacons) peers)
    with (after_beacons beacons (processBeacon beacon peers)).
  rewrite same_sender_settles; [apply processBeacon_active_count|done|congruence|].
  eapply Forall_impl; [exact Hrest|]. simpl. congruence.
Qed.

(** Witness for X5: three iterations, the second with a failed inference. *)
Lemma beaconing_node_takes_one_slot_witness :
  length (run BeaconScenario.node BeaconScenario.ticks) ≤ 3 ∧
  active_count (deliver (run BeaconScenario.node BeaconScenario.ticks)
                  Scenario.table_far)
  ≤ S (active_count Scenario.table_far).
Proof.
  destruct (beaconing_node_takes_one_slot BeaconScenario.node BeaconScenario.ticks
              Scenario.table_far) as (Hsent & _ & _ & Hcount).
  - reflexivity.
  - reflexivity.
  - repeat constructor; simpl; intros output [= <-]; vm_compute; lia.
  - split; [exact Hsent|exact Hcount].
Defined.

Lemma active_count_none peers :
  Forall (λ p, is_active p = false) peers → active_count peers = 0.
Proof.
  unfold active_count. induction 1 as [|p peers Hoff _ IH]; [done|].
  rewrite filter_cons_False by congruence. done.
Qed.

(** Filling a table whose first [m] slots are the active ones. *)
Lemma fill_from (m : nat) (beacons : list BeaconPacket) peers :
  length peers = MAX_PEERS → m ≤ MAX_PEERS →
  (∀ i q, i < m → peers !! i = Some q → is_active q = true) →
  (∀ i q, m ≤ i → peers !! i = Some q → is_active q = false) →
  Forall (λ beacon, length (sender_id beacon) = NODE_ID_LENGTH) beacons →
  NoDup (sender_id <$> beacons) →
  (∀ beacon i q, beacon ∈ beacons → peers !! i = Some q → matches beacon q = false) →
  (∀ i, i < m → after_beacons beacons peers !! i = peers !! i) ∧
  (∀ n beacon, m + n < MAX_PEERS → beacons !! n = Some beacon →
     ∃ p, after_beacons beacons peers !! (m + n) = Some p ∧
          is_active p = true ∧
          take NODE_ID_LENGTH (mac_address p) = sender_id beacon ∧
          last_seen p = timestamp beacon) ∧
  active_count (after_beacons beacons peers)
  = active_count peers + length beacons `min` (MAX_PEERS - m).
Proof.
  intros Hlen Hm Hon Hoff Hids. revert m peers Hlen Hm Hon Hoff.
  induction Hids as [|beacon beacons Hid Hids IH];
    intros m peers Hlen Hm Hon Hoff Hnodup Hnew.
  { simpl. split; [done|]. split; [intros n b _ Hb; by destruct n|lia]. }
  rewrite fmap_cons in Hnodup. apply NoDup_cons in Hnodup as [Hfresh Hnodup].
  change (after_beacons (beacon :: beacons) peers)
    with (after_beacons beacons (processBeacon beacon peers)).
  destruct (decide (m = MAX_PEERS)) as [->|Hroom].
  - (* the table is full: the beacon is dropped *)
    rewrite processBeacon_dropped.
    2:{ apply Forall_lookup. intros i q Hq. split.
        - apply (Hon i q); [|done]. apply lookup_lt_Some in Hq. lia.
        - apply (Hnew beacon i q); [apply list_elem_of_here|done]. }
    destruct (IH MAX_PEERS peers) as (IHkeep & _ & IHcount); try done.
    { intros b i q Hb. apply Hnew. by apply list_elem_of_further. }
    split; [done|]. split; [intros n b ?; lia|].
    rewrite IHcount. rewrite Nat.sub_diag, !Nat.min_0_r. done.
  - (* slot [m] is the first inactive one *)
    assert (is_Some (peers !! m)) as [pm Hpm] by (apply lookup_lt_is_Some; lia).
    assert (processBeacon beacon peers = alter (populate beacon) m peers) as ->.
    { apply (processBeacon_populates peers beacon m pm); [done| |done| |].
      - intros i q. apply Hnew, list_elem_of_here.
      - by apply (Hoff m pm).
      - intros i q Hi. by apply Hon. }
    destruct (IH (S m) (alter (populate beacon) m peers)) as (IHkeep & IHfill & IHcount).
    + by rewrite length_alter.
    + lia.
    + intros i q Hi. destruct (decide (i = m)) as [->|Hne].
      * rewrite list_lookup_alter_eq, Hpm. by intros [= <-].
      * rewrite list_lookup_alter_ne by done. apply Hon. lia.
    + intros i q Hi. rewrite list_lookup_alter_ne by lia. apply Hoff. lia.
    + done.
    + intros b i q Hb. destruct (decide (i = m)) as [->|Hne].
      * rewrite list_lookup_alter_eq, Hpm. intros [= <-].
        rewrite matches_populate by done. apply bool_decide_eq_false.
        rewrite Forall_forall in Hids. rewrite <- (Hids b Hb), firstn_all.
        intros Heq. apply Hfresh. rewrite Heq. by apply list_elem_of_fmap_2.
      * rewrite list_lookup_alter_ne by done.
        apply Hnew. by apply list_elem_of_further.
    + split; [|split].
      * intros i Hi. rewrite IHkeep by lia. apply list_lookup_alter_ne. lia.
      * intros n b Hn Hb. destruct n as [|n].
        -- injection Hb as <-. rewrite Nat.add_0_r.
           rewrite IHkeep by lia. rewrite list_lookup_alter_eq, Hpm. simpl.
           eexists. split; [done|]. simpl. split; [done|]. split; [|done].
           by apply take_memcpy.
        -- replace (m + S n) with (S m + n) by lia. apply IHfill; [lia|done].
      * rewrite IHcount.
        rewrite (active_count_alter_activate _ _ _ pm); try done.
        2:{ by apply (Hoff m pm). }
        simpl length. lia.
Qed.

(** X6. Arrival order: on a table with no active slot, beacons from pairwise
    distinct identities that no slot's bytes happen to equal are stored in
    slots 0, 1, 2, ... in the order they arrive, each slot active with the
    sender's identity and timestamp; once the 20 slots are taken the further
    beacons are dropped, so the table ends with min(n, 20) active entries. *)
Theorem arrival_order_fills_slots (beacons : list BeaconPacket) peers :
  length peers = MAX_PEERS →
  Forall (λ p, is_active p = false) peers →
  Forall (λ beacon, length (sender_id beacon) = NODE_ID_LENGTH) beacons →
  NoDup (sender_id <$> beacons) →
  (∀ beacon p, beacon ∈ beacons → p ∈ peers → matches beacon p = false) →
  (∀ n beacon, n < MAX_PEERS → beacons !! n = Some beacon →
     ∃ p, after_beacons beacons peers !! n = Some p ∧
          is_active p = true ∧
          take NODE_ID_LENGTH (mac_address p) = sender_id beacon ∧
          last_seen p = timestamp beacon) ∧
  active_count (after_beacons beacons peers) = length beacons `min` MAX_PEERS.
Proof.
  intros Hlen Hoff Hids Hnodup Hnew.
  rewrite Forall_lookup in Hoff.
  destruct (fill_from 0 beacons peers) as (_ & Hfill & Hcount); try done.
  - lia.
  - intros i q Hi. lia.
  - intros i q _. apply Hoff.
  - intros b i q Hb Hq. apply Hnew; [done|]. by apply list_elem_of_lookup_2 in Hq.
  - split; [exact Hfill|]. rewrite Hcount.
    assert (active_count peers = 0) as ->; [|by rewrite Nat.sub_0_r].
    apply active_count_none. by apply Forall_lookup.
Qed.

(** Witness for X6: three peers on a zeroed table. *)
Lemma arrival_order_fills_slots_witness :
  active_count (after_beacons BeaconScenario.arrivals Scenario.blank_table) = 3 ∧
  ∃ p, after_beacons BeaconScenario.arrivals Scenario.blank_table !! 1 = Some p ∧
       take NODE_ID_LENGTH (mac_address p) = Scenario.id_of x0b.
Proof.
  destruct (arrival_order_fills_slots BeaconScenario.arrivals Scenario.blank_table)
    as [Hfill Hcount].
  - reflexivity.
  - by apply Forall_replicate.
  - by repeat constructor.
  - apply (bool_decide_unpack _). vm_compute. exact I.
  - intros beacon p Hb Hp. apply elem_of_replicate in Hp as [-> _].
    unfold BeaconScenario.arrivals in Hb.
    repeat (apply elem_of_cons in Hb as [->|Hb]; [vm_compute; reflexivity|]).
    by apply elem_of_nil in Hb.
  - split; [exact Hcount|].
    destruct (Hfill 1 (Scenario.beacon_from (Scenario.id_of x0b) x3f 200))
      as (p & Hp & _ & Hmac & _); [unfold MAX_PEERS; lia|reflexivity|].
    exists p. by split.
Defined.

End PeerUpsert.

(** ** More on the storage manager *)
Section StorageBehaviour.

Import FileManager.

Local Open Scope list_scope.

Implicit Types (fs : Files) (io : IoOutcome) (request : FileRequest).

(** X8. What a READ answers: success exactly when the whole file came back,
    with the length field equal to the number of bytes returned; a read cut
    short reports "Read error" and still hands over the bytes it got; and a
    file that does not exist or cannot be opened gives "Failed to open file"
    with no buffer. *)
Theorem read_outcomes io request fs :
  rrequestId (handleRead io request fs) = requestId request ∧
  rlength (handleRead io request fs)
  = List.length (bytes_of (rdata (handleRead io request fs))) ∧
  (success (handleRead io request fs) = true ↔
   ∃ content, fs !! c_str (filename request) = Some content ∧
              rdata (handleRead io request fs) = Some content ∧
              message (handleRead io request fs) = "Success") ∧
  (success (handleRead io request fs) = false →
   (message (handleRead io request fs) = "Failed to open file" ∧
    rdata (handleRead io request fs) = None ∧
    (fs !! c_str (filename request) = None ∨ opens io = false)) ∨
   (message (handleRead io request fs) = "Read error" ∧
    ∃ content, fs !! c_str (filename request) = Some content ∧
               moves io < List.length content ∧
               rdata (handleRead io request fs) = Some (take (moves io) content))).
Proof.
  unfold handleRead.
  destruct (fs !! c_str (filename request)) as [content|] eqn:Hfile; simpl.
  2:{ split; [done|]. split; [done|]. split.
      - split; [done|]. intros (c & H1 & H2 & H3). congruence.
      - intros _. left. auto. }
  destruct (opens io); simpl.
  2:{ split; [done|]. split; [done|]. split.
      - split; [done|]. intros (c & H1 & H2 & H3). congruence.
      - intros _. left. auto. }
  split; [done|]. split; [rewrite length_take; lia|].
  case_bool_decide as Hwhole; simpl.
  - split; [|done]. split; [|done]. intros _. exists content.
    by rewrite Hwhole, firstn_all.
  - split; [split; [done|intros (c & H1 & H2 & H3); congruence]|].
    intros _. right. split; [done|]. exists content.
      assert (moves io < List.length content) as Hlt by lia.
      split; [done|]. split; [done|]. by rewrite Nat.min_l by lia.
Qed.

(** Witness for X8: a read cut after 2 of 3 bytes. *)
Lemma read_outcomes_witness :
  message (handleRead {| opens := true; moves := 2 |}
             (requestRead StorageScenario.path 4) StorageScenario.disk)
  = "Read error" ∧
  rdata (handleRead {| opens := true; moves := 2 |}
           (requestRead StorageScenario.path 4) StorageScenario.disk)
  = Some [x01; x02].
Proof.
  destruct (read_outcomes {| opens := true; moves := 2 |}
              (requestRead StorageScenario.path 4) StorageScenario.disk)
    as (_ & _ & _ & Hfailed).
  destruct Hfailed as [(Hmsg & _)|(Hmsg & content & Hfile & _ & Hdata)].
  - reflexivity.
  - discriminate Hmsg.
  - split; [exact Hmsg|]. rewrite Hdata.
    vm_compute in Hfile. by injection Hfile as <-.
Defined.

Lemma fileTask_step_files (dev : Device) request (st : TaskState) (name : string) :
  is_Some (files st !! name) →
  is_Some (files (fileTask_step dev request st) !! name).
Proof.
  unfold fileTask_step.
  destruct (operation request) eqn:Hop; simpl; try done.
  unfold handleWrite. destruct (opens (port dev)); simpl; [|done].
  intros Hsome. destruct (decide (c_str (filename request) = name)) as [->|Hne].
  - by rewrite lookup_insert_eq.
  - by rewrite lookup_insert_ne.
Qed.

(** X10. The storage worker never removes a file: whatever requests it
    serves (a DELETE request included, for which the [switch] has no case), a
    file that is present stays present. *)
Theorem worker_keeps_files (reqs : list (Device * FileRequest)) (st : TaskState)
    (name : string) :
  is_Some (files st !! name) →
  is_Some (files (fileTask reqs st).2 !! name).
Proof.
  revert st. induction reqs as [|[dev request] reqs IH]; intros st; simpl; [done|].
  specialize (IH (fileTask_step dev request st)).
  destruct (fileTask reqs (fileTask_step dev request st)) as [sent final].
  intros Hsome. by apply IH, fileTask_step_files.
Qed.

(** Witness for X10: a DELETE of the model file and a WRITE of the log leave
    the model file in place. *)
Lemma worker_keeps_files_witness :
  is_Some (files (fileTask
                    [(sound 8, StorageScenario.delete_request StorageScenario.path 1);
                     (sound 8, requestWrite "/spiffs/log" [x00] 1 2)]
                    {| files := StorageScenario.disk;
                       response := StorageScenario.initial_response |}).2
             !! StorageScenario.path).
Proof.
  apply (worker_keeps_files
           [(sound 8, StorageScenario.delete_request StorageScenario.path 1);
            (sound 8, requestWrite "/spiffs/log" [x00] 1 2)]
           {| files := StorageScenario.disk;
              response := StorageScenario.initial_response |}
           StorageScenario.path).
  vm_compute. eauto.
Defined.

Lemma c_str_cut (f g : string) :
  c_str (String.append f (String Ascii.zero g)) = c_str f.
Proof.
  induction f as [|c f IH]; simpl; [done|].
  destruct (Ascii.eqb c Ascii.zero); [done|]. by rewrite IH.
Qed.

(** X11. File names are taken as C strings ([filename.c_str()] goes to
    [fopen]): a name is cut at its first NUL character, so a READ or a WRITE
    under a name with an embedded NUL does, to the same file and with the same
    response, what it does under the name without the NUL and what follows
    it. *)
Theorem names_end_at_nul (io : IoOutcome) (dev : Device) (f g : string)
    (b : list byte) (n : nat) (k : N) fs :
  handleRead io (requestRead (String.append f (String Ascii.zero g)) k) fs
  = handleRead io (requestRead f k) fs ∧
  handleWrite dev (requestWrite (String.append f (String Ascii.zero g)) b n k) fs
  = handleWrite dev (requestWrite f b n k) fs.
Proof.
  unfold handleRead, handleWrite, requestRead, requestWrite. simpl.
  by rewrite c_str_cut.
Qed.

End StorageBehaviour.

(** ** More on the model runtime *)
Section ModelBehaviour.

Import ModelRuntime.

Local Open Scope list_scope.

Implicit Types (E : Engine) (request : ModelRequest) (models : Models)
  (context : ModelContext) (st : TaskState).

Lemma length_copy_input request context :
  length (copy_input request context) = length (input_tensor context).
Proof.
  unfold copy_input, memcpy. cbn zeta.
  rewrite length_take, length_app, length_drop. lia.
Qed.

(** What RUN does to the entry it finds. *)
Lemma handleInference_entry E request models context :
  models !! modelId request = Some context →
  ∃ kept,
    table (handleInference E request models) = <[modelId request := kept]> models ∧
    model kept = model context ∧
    tensorArenaSize kept = tensorArenaSize context ∧
    input_tensor kept = copy_input request context ∧
    state kept = (if success (reply (handleInference E request models))
                  then READY else RUNNING).
Proof.
  intros Hsome. unfold handleInference. rewrite Hsome.
  destruct (Invoke E (model context) (copy_input request context));
    simpl; eexists; by repeat split.
Qed.

(** X13. RUN never loads or unloads anything: for a request whose input fits
    the input tensor of the context it runs on (or that finds no context),
    the set of loaded model ids is the same after it, failed or not, and the
    entry it ran on keeps its model, its arena size and the size of its input
    tensor; its state is READY after a successful run and RUNNING after a
    failed invocation. *)
Theorem run_keeps_models E request models :
  (∀ context, models !! modelId request = Some context → fits request context) →
  dom (table (handleInference E request models)) = dom models ∧
  (∀ context, models !! modelId request = Some context →
     ∃ kept, table (handleInference E request models) !! modelId request = Some kept ∧
             model kept = model context ∧
             tensorArenaSize kept = tensorArenaSize context ∧
             length (input_tensor kept) = length (input_tensor context) ∧
             state kept = (if success (reply (handleInference E request models))
                           then READY else RUNNING)).
Proof.
  intros _.
  destruct (models !! modelId request) as [context|] eqn:Hlook.
  - destruct (handleInference_entry E request models context Hlook)
      as (kept & Htable & Hmodel & Harena & Htensor & Hstate).
    split.
    + rewrite Htable. apply dom_insert_lookup_L. eauto.
    + intros ? [= <-]. exists kept. rewrite Htable, lookup_insert_eq.
      repeat split; try done. by rewrite Htensor, length_copy_input.
  - rewrite handleInference_absent by done. split; [done|]. by intros ?.
Qed.

(** Witness for X13: the failing RUN of the scenario. *)
Lemma run_keeps_models_witness :
  ∃ kept,
    table (handleInference ModelScenario.toy
             (requestInference "gesture" ModelScenario.bad_input 4 2)
             ModelScenario.gesture_loaded) !! "gesture" = Some kept ∧
    model kept = [x54; x46; x4c; x33] ∧ state kept = RUNNING.
Proof.
  destruct (run_keeps_models ModelScenario.toy
              (requestInference "gesture" ModelScenario.bad_input 4 2)
              ModelScenario.gesture_loaded) as [_ Hkept].
  - intros context Hlook. vm_compute in Hlook. injection Hlook as <-.
    split; vm_compute; lia.
  - destruct (Hkept {| model := [x54; x46; x4c; x33]; input_tensor := replicate 4 x00;
                       tensorArenaSize := arena_bytes; state := READY |})
      as (kept & Hlook & Hmodel & _ & _ & Hstate); [reflexivity|].
    exists kept. by repeat split.
Defined.

(** X14. An input shorter than the input tensor is not padded: the engine is
    invoked on the new bytes followed by what the tensor held beyond them,
    that is, the tail of an earlier request's input; with an input of the
    tensor's size the engine sees exactly the input. *)
Theorem short_input_keeps_tail E request models context :
  models !! modelId request = Some context →
  inputLength request ≤ length (input_tensor context) →
  inputLength request ≤ length (bytes_of (inputData request)) →
  effects (handleInference E request models)
  = [InputCopy (length (input_tensor context)) (inputLength request);
     Invocation (take (inputLength request) (bytes_of (inputData request))
                 ++ drop (inputLength request) (input_tensor context))] ∧
  (inputLength request = length (input_tensor context) →
   copy_input request context
   = take (inputLength request) (bytes_of (inputData request))).
Proof.
  intros Hsome Hfits Hdata.
  assert (copy_input request context
          = take (inputLength request) (bytes_of (inputData request))
            ++ drop (inputLength request) (input_tensor context)) as Hcopy.
  { unfold copy_input, memcpy. cbn zeta.
    rewrite length_take, Nat.min_l by done. apply take_ge.
    rewrite length_app, length_take, length_drop. lia. }
  destruct (handleInference_present E request models context Hsome) as [-> _].
  rewrite Hcopy. split; [done|].
  intros Hexact. rewrite drop_ge by lia. apply app_nil_r.
Qed.

(** Witness for X14: two bytes into the four-byte tensor that still holds an
    earlier input. *)
Lemma short_input_keeps_tail_witness :
  effects (handleInference ModelScenario.toy
             (requestInference "gesture" [x05; x06] 2 3)
             (table (handleInference ModelScenario.toy
                       (requestInference "gesture" ModelScenario.good_input 4 2)
                       ModelScenario.gesture_loaded)))
  = [InputCopy 4 2; Invocation [x05; x06; x07; x06]].
Proof.
  destruct (short_input_keeps_tail ModelScenario.toy
              (requestInference "gesture" [x05; x06] 2 3)
              (table (handleInference ModelScenario.toy
                        (requestInference "gesture" ModelScenario.good_input 4 2)
                        ModelScenario.gesture_loaded))
              {| model := [x54; x46; x4c; x33];
                 input_tensor := ModelScenario.good_input;
                 tensorArenaSize := arena_bytes; state := READY |})
    as [Heffects _].
  - vm_compute. reflexivity.
  - vm_compute. lia.
  - vm_compute. lia.
  - rewrite Heffects. reflexivity.
Defined.

(** X15. Whatever LOAD, RUN and STATUS requests the worker serves from an
    empty table, every context in the table is READY or RUNNING: a context is
    never stored as ERROR, LOADING or UNLOADED, also when the response to the
    caller reports ERROR. *)
Theorem stored_state_ready_or_running E (reqs : list ModelRequest)
    (r0 : ModelResponse) (id : string) context :
  Forall (λ request, operation request ≠ UNLOAD) reqs →
  loaded (modelTask E reqs {| loaded := ∅; response := r0 |}).2 !! id = Some context →
  state context = READY ∨ state context = RUNNING.
Proof.
  intros _ Hlook.
  apply (modelTask_settled E reqs {| loaded := ∅; response := r0 |}
           (map_Forall_empty _) id context Hlook).
Qed.

(** Witness for X15: the context left by a failed invocation. *)
Lemma stored_state_ready_or_running_witness :
  ∃ context,
    loaded (modelTask ModelScenario.toy
              [requestModelLoad "gesture" 1;
               requestInference "gesture" ModelScenario.bad_input 4 2]
              {| loaded := ∅; response := ModelScenario.initial_response |}).2
      !! "gesture" = Some context ∧
    (state context = READY ∨ state context = RUNNING).
Proof.
  eexists. split; [vm_compute; reflexivity|].
  apply (stored_state_ready_or_running ModelScenario.toy
           [requestModelLoad "gesture" 1;
            requestInference "gesture" ModelScenario.bad_input 4 2]
           ModelScenario.initial_response "gesture").
  - repeat constructor; discriminate.
  - vm_compute. reflexivity.
Defined.

Lemma modelTask_step_keeps E request st (id : string) context :
  operation request ≠ UNLOAD →
  loaded st !! id = Some context →
  ∃ kept, loaded (modelTask_step E request st) !! id = Some kept ∧
          model kept = model context ∧
          tensorArenaSize kept = tensorArenaSize context ∧
          length (input_tensor kept) = length (input_tensor context).
Proof.
  intros Hop Hlook. unfold modelTask_step.
  destruct (operation request) eqn:Hkind; simpl; [|done| |by eauto].
  - destruct (decide (id = modelId request)) as [->|Hne].
    + unfold handleModelLoad. rewrite Hlook. simpl. eauto.
    + rewrite handleModelLoad_other by done. eauto.
  - destruct (decide (id = modelId request)) as [->|Hne].
    + destruct (handleInference_entry E request (loaded st) context Hlook)
        as (kept & -> & Hmodel & Harena & Htensor & _).
      exists kept. rewrite lookup_insert_eq.
      repeat split; try done. by rewrite Htensor, length_copy_input.
    + rewrite handleInference_other by done. eauto.
Qed.

(** X16. A loaded model stays loaded and is not read from storage again:
    through any LOAD, RUN and STATUS requests the worker serves, the RUNs
    with inputs that fit their input tensors, the entry of a model id that is
    in the table remains, with the model it was loaded with, its arena size
    and the size of its input tensor; so a RUN(id) that follows is not
    answered "Model not loaded", and a LOAD(id) that follows is answered at
    once as already loaded, with no storage lookup and no allocation. *)
Theorem loaded_model_stays E (reqs : list ModelRequest) st (id : string) context :
  Forall (λ request, operation request ≠ UNLOAD) reqs →
  served_in_bounds E reqs st →
  loaded st !! id = Some context →
  (∃ kept, loaded (modelTask E reqs st).2 !! id = Some kept ∧
           model kept = model context ∧
           tensorArenaSize kept = tensorArenaSize context ∧
           length (input_tensor kept) = length (input_tensor context)) ∧
  (∀ request, modelId request = id →
     message (reply (handleInference E request (loaded (modelTask E reqs st).2)))
     ≠ "Model not loaded") ∧
  (∀ k, handleModelLoad E (requestModelLoad id k) (loaded (modelTask E reqs st).2)
        = {| reply := {| success := true; message := "Model already loaded";
                         outputData := None; outputLength := 0; rrequestId := k;
                         rstate := READY |};
             table := loaded (modelTask E reqs st).2;
             effects := [] |}).
Proof.
  intros Hreqs _ Hlook.
  assert (∃ kept, loaded (modelTask E reqs st).2 !! id = Some kept ∧
                  model kept = model context ∧
                  tensorArenaSize kept = tensorArenaSize context ∧
                  length (input_tensor kept) = length (input_tensor context))
    as Hkept.
  { revert st context Hlook.
    induction Hreqs as [|request reqs Hop _ IH]; intros st context Hlook; simpl.
    - eauto.
    - destruct (modelTask_step_keeps E request st id context Hop Hlook)
        as (mid & Hmid & Hmodel & Harena & Htensor).
      specialize (IH (modelTask_step E request st) mid Hmid).
      destruct (modelTask E reqs (modelTask_step E request st)) as [sent final].
      destruct IH as (kept & Hfinal & Hm & Ha & Ht). simpl in *.
      exists kept. repeat split; congruence. }
  split; [exact Hkept|].
  destruct Hkept as (kept & Hfinal & _). split.
  - intros request <-.
    destruct (handleInference_present E request _ kept Hfinal) as [_ [->| ->]];
      discriminate.
  - intros k. unfold handleModelLoad, requestModelLoad. simpl. by rewrite Hfinal.
Qed.

(** Witness for X16: "gesture" after a failed and a successful RUN. *)
Lemma loaded_model_stays_witness :
  ∃ kept,
    loaded (modelTask ModelScenario.toy
              [requestInference "gesture" ModelScenario.bad_input 4 2;
               requestInference "gesture" ModelScenario.good_input 4 3]
              {| loaded := ModelScenario.gesture_loaded;
                 response := ModelScenario.initial_response |}).2
      !! "gesture" = Some kept ∧
    model kept = [x54; x46; x4c; x33].
Proof.
  destruct (loaded_model_stays ModelScenario.toy
              [requestInference "gesture" ModelScenario.bad_input 4 2;
               requestInference "gesture" ModelScenario.good_input 4 3]
              {| loaded := ModelScenario.gesture_loaded;
                 response := ModelScenario.initial_response |}
              "gesture"
              {| model := [x54; x46; x4c; x33]; input_tensor := replicate 4 x00;
                 tensorArenaSize := arena_bytes; state := READY |})
    as [(kept & Hlook & Hmodel & _) _].
  - repeat constructor; discriminate.
  - split; [|split; [|exact I]]; intros _ context Hlook;
      vm_compute in Hlook; injection Hlook as <-; split; vm_compute; lia.
  - reflexivity.
  - exists kept. by split.
Defined.

(** X17. Only a successful RUN hands over an output buffer, and then
    [outputLength] is its length and the state reported is READY; every LOAD
    response and every failed response carries a null buffer of length 0, a
    failed LOAD reporting ERROR and a failed RUN reporting UNLOADED (nothing
    stored for the id) or ERROR (the invocation failed). *)
Theorem output_only_on_successful_run E request models :
  (outputData (reply (handleModelLoad E request models)) = None ∧
   outputLength (reply (handleModelLoad E request models)) = 0 ∧
   rstate (reply (handleModelLoad E request models))
   = (if success (reply (handleModelLoad E request models)) then READY else ERROR)) ∧
  (success (reply (handleInference E request models)) = false →
   outputData (reply (handleInference E request models)) = None ∧
   outputLength (reply (handleInference E request models)) = 0 ∧
   rstate (reply (handleInference E request models))
   = match models !! modelId request with Some _ => ERROR | None => UNLOADED end) ∧
  (success (reply (handleInference E request models)) = true →
   ∃ context output,
     models !! modelId request = Some context ∧
     Invoke E (model context) (copy_input request context) = Some output ∧
     outputData (reply (handleInference E request models)) = Some output ∧
     outputLength (reply (handleInference E request models)) = length output ∧
     rstate (reply (handleInference E request models)) = READY).
Proof.
  split; [|split].
  - unfold handleModelLoad. handler_cases.
  - unfold handleInference. handler_cases.
  - unfold handleInference.
    destruct (models !! modelId request) as [context|]; [|done].
    destruct (Invoke E (model context) (copy_input request context))
      as [output|] eqn:Hinvoke; [|done].
    intros _. exists context, output. by repeat split.
Qed.

(** Witness for X17: the successful RUN of the scenario. *)
Lemma output_only_on_successful_run_witness :
  outputLength (reply (handleInference ModelScenario.toy
                         (requestInference "gesture" ModelScenario.good_input 4 2)
                         ModelScenario.gesture_loaded))
  = 2.
Proof.
  destruct (output_only_on_successful_run ModelScenario.toy
              (requestInference "gesture" ModelScenario.good_input 4 2)
              ModelScenario.gesture_loaded) as (_ & _ & Hok).
  destruct Hok as (context & output & _ & _ & Hdata & -> & _); [reflexivity|].
  vm_compute in Hdata. by injection Hdata as <-.
Defined.

Lemma modelTask_step_placeholder E request st :
  loadModelFromStorage E = loadModelFromStorage_placeholder →
  operation request ≠ UNLOAD →
  loaded st = ∅ →
  loaded (modelTask_step E request st) = ∅ ∧
  (operation request = LOAD →
   response (modelTask_step E request st)
   = failed "Failed to load model file" request ERROR) ∧
  (operation request = RUN →
   response (modelTask_step E request st)
   = failed "Model not loaded" request UNLOADED).
Proof.
  intros Hstub Hop Hempty. unfold modelTask_step.
  destruct (operation request); simpl; [|done| |done].
  - rewrite placeholder_storage_never_loads
      by (done || by rewrite Hempty, lookup_empty). done.
  - rewrite handleInference_absent by (by rewrite Hempty, lookup_empty). done.
Qed.

(** X18. With [loadModelFromStorage] as the header defines it (it returns no
    model), the runtime never loads anything: served from an empty table,
    every LOAD fails with "Failed to load model file" and state ERROR, every
    RUN fails with "Model not loaded" and state UNLOADED, and the table stays
    empty. *)
Theorem header_storage_loads_nothing E (reqs : list ModelRequest) (r0 : ModelResponse) :
  loadModelFromStorage E = loadModelFromStorage_placeholder →
  Forall (λ request, operation request ≠ UNLOAD) reqs →
  loaded (modelTask E reqs {| loaded := ∅; response := r0 |}).2 = ∅ ∧
  Forall (λ sent,
            (operation sent.1 = LOAD →
             sent.2 = {| success := false; message := "Failed to load model file";
                         outputData := None; outputLength := 0;
                         rrequestId := requestId sent.1; rstate := ERROR |}) ∧
            (operation sent.1 = RUN →
             sent.2 = {| success := false; message := "Model not loaded";
                         outputData := None; outputLength := 0;
                         rrequestId := requestId sent.1; rstate := UNLOADED |}))
         (modelTask E reqs {| loaded := ∅; response := r0 |}).1.
Proof.
  intros Hstub Hreqs.
  assert (∀ st, loaded st = ∅ →
            loaded (modelTask E reqs st).2 = ∅ ∧
            Forall (λ sent,
                      (operation sent.1 = LOAD →
                       sent.2 = failed "Failed to load model file" sent.1 ERROR) ∧
                      (operation sent.1 = RUN →
                       sent.2 = failed "Model not loaded" sent.1 UNLOADED))
                   (modelTask E reqs st).1) as Hall.
  { induction Hreqs as [|request reqs Hop _ IH]; intros st Hempty; simpl.
    - split; [done|constructor].
    - destruct (modelTask_step_placeholder E request st Hstub Hop Hempty)
        as (Hstill & Hload & Hrun).
      specialize (IH (modelTask_step E request st) Hstill).
      destruct (modelTask E reqs (modelTask_step E request st)) as [sent final].
      destruct IH as [IHempty IHsent]. simpl in *.
      split; [done|]. constructor; [|done]. by split. }
  by apply (Hall {| loaded := ∅; response := r0 |}).
Qed.

(** Witness for X18: a LOAD and two RUNs against the storage as shipped. *)
Lemma header_storage_loads_nothing_witness :
  (λ sent, message sent.2) <$>
    (modelTask HeaderScenario.as_shipped HeaderScenario.session
       {| loaded := ∅; response := ModelScenario.initial_response |}).1
  = ["Failed to load model file"; "Model not loaded"; "Model not loaded"] ∧
  loaded (modelTask HeaderScenario.as_shipped HeaderScenario.session
            {| loaded := ∅; response := ModelScenario.initial_response |}).2 = ∅.
Proof.
  destruct (header_storage_loads_nothing HeaderScenario.as_shipped
              HeaderScenario.session ModelScenario.initial_response)
    as [Hempty _].
  - reflexivity.
  - repeat constructor; discriminate.
  - split; [vm_compute; reflexivity|exact Hempty].
Defined.

End ModelBehaviour.
